(** * LRU cache with per-entry TTL: a shallow embedding of
    [LRU-ALGORITHM/cache-lru.py] and the proofs of its specification.

    The Python class keeps a [dict] from keys to [Node] objects and threads
    the same objects on a doubly-linked list delimited by two sentinel
    nodes.  The embedding keeps that shape: objects live in a store indexed
    by addresses, a node's [prev]/[next] fields hold optional addresses
    (Python's [None] or a reference), and every method is a computation in a
    state-and-exception monad over the cache object and the store.

    Clock readings ([time.time() * 1000]) are inputs of the methods: [get]
    and [put] receive the reading they take, and the sweep receives the
    reading taken while each key is examined.  Readings and expiry times are
    Python floats: the embedding takes their type, the comparison [>=] and
    the sum of a float and an int as parameters, so that nothing is assumed
    of float arithmetic; [pyfloat] further down instantiates them. *)

From stdpp Require Import base option list gmap strings.
From Stdlib Require Import ZArith Lia.

Local Open Scope Z_scope.

(** ** Exceptions and outcomes *)

(** [StoreError] is the model's own failure (a reference to an object that
    is not in the store); Python cannot raise it, and the theorems show the
    model never does either. *)
Inductive exn : Type :=
  | ValueError (msg : string)
  | OverflowError
  | KeyError
  | AttributeError
  | StoreError.

Inductive outcome (A : Type) : Type :=
  | Return (a : A)
  | Raise (e : exn).
Arguments Return {A} a.
Arguments Raise {A} e.

Definition addr : Type := nat.

Section LRU.

Context `{Countable K} {V : Type} {time : Type}.

(** Python's [None], as a key and as a value. *)
Variable None_key : K.
Variable None_value : V.

(** Times.  [time] holds the numbers found in [expire_time] and returned by
    the clock; [time_zero] is the [0] of the sentinels; [float_ge x y] is
    [x >= y]; [float_add x n] is [x + n] for a float [x] and an int [n]:
    [None] when converting [n] to a float raises OverflowError, otherwise
    the float sum, rounded as the machine rounds it. *)
Variable time_zero : time.
Variable float_ge : time → time → bool.
Variable float_add : time → Z → option time.

(** ** class Node *)

Record Node : Type := mkNode {
  key : K;
  value : V;
  expire_time : time;
  prev : option addr;
  next : option addr
}.

Definition set_value (v : V) (n : Node) : Node :=
  mkNode (key n) v (expire_time n) (prev n) (next n).
Definition set_expire_time (e : time) (n : Node) : Node :=
  mkNode (key n) (value n) e (prev n) (next n).
Definition set_prev (p : option addr) (n : Node) : Node :=
  mkNode (key n) (value n) (expire_time n) p (next n).
Definition set_next (x : option addr) (n : Node) : Node :=
  mkNode (key n) (value n) (expire_time n) (prev n) x.

(** ** class LRUCacheWithTTL: the object's fields and the object store *)

Record LRUCacheWithTTL : Type := mkCache {
  capacity : Z;
  cache : gmap K addr;
  head : addr;
  tail : addr;
  store : gmap addr Node
}.

Definition with_store (st : gmap addr Node) (s : LRUCacheWithTTL) : LRUCacheWithTTL :=
  mkCache (capacity s) (cache s) (head s) (tail s) st.
Definition with_cache (c : gmap K addr) (s : LRUCacheWithTTL) : LRUCacheWithTTL :=
  mkCache (capacity s) c (head s) (tail s) (store s).

(** ** The monad of methods: state passing, and an exception keeps the state
    reached when it was raised *)

Definition M (A : Type) : Type := LRUCacheWithTTL → outcome A * LRUCacheWithTTL.

#[export] Instance M_ret : MRet M := λ A a s, (Return a, s).
#[export] Instance M_bind : MBind M := λ A B f m s,
  match m s with
  | (Return a, s') => f a s'
  | (Raise e, s') => (Raise e, s')
  end.

Definition raise {A} (e : exn) : M A := λ s, (Raise e, s).

(** Reading a field of [self]. *)
Definition self {A} (f : LRUCacheWithTTL → A) : M A := λ s, (Return (f s), s).

(** Reading the object at an address, and assigning to its fields. *)
Definition load (a : addr) : M Node := λ s,
  match store s !! a with
  | Some n => (Return n, s)
  | None => (Raise StoreError, s)
  end.

Definition modify (a : addr) (f : Node → Node) : M () := λ s,
  match store s !! a with
  | Some n => (Return (), with_store (<[a := f n]> (store s)) s)
  | None => (Raise StoreError, s)
  end.

(** [Node(...)]: a new object at an address not in use. *)
Definition alloc (n : Node) : M addr := λ s,
  let a := fresh (dom (store s)) in
  (Return a, with_store (<[a := n]> (store s)) s).

(** Attribute access through a reference that may be [None]. *)
Definition attr (o : option addr) : M addr :=
  match o with
  | Some a => mret a
  | None => raise AttributeError
  end.

(** [self.cache[key]], [del self.cache[key]] and [self.cache[key] = node]. *)
Definition dict_get (k : K) : M addr := λ s,
  match cache s !! k with
  | Some a => (Return a, s)
  | None => (Raise KeyError, s)
  end.

Definition dict_del (k : K) : M () := λ s,
  match cache s !! k with
  | Some _ => (Return (), with_cache (delete k (cache s)) s)
  | None => (Raise KeyError, s)
  end.

Definition dict_set (k : K) (a : addr) : M () := λ s,
  (Return (), with_cache (<[k := a]> (cache s)) s).

Fixpoint for_each {A} (body : A → M ()) (l : list A) : M () :=
  match l with
  | [] => mret ()
  | x :: l' => body x ;; for_each body l'
  end.

(** ** Methods *)

(** The constructor: the two sentinels are the first objects of the store. *)
Definition __init__ (capacity : Z) : exn + LRUCacheWithTTL :=
  if capacity <=? 0 then inl (ValueError "Capacity must be positive")
  else
    let head := 0%nat in
    let tail := 1%nat in
    inr (mkCache capacity ∅ head tail
           (<[tail := mkNode None_key None_value time_zero (Some head) None]>
              {[head := mkNode None_key None_value time_zero None (Some tail)]})).

Definition _remove_node (node : addr) : M () :=
  n ← load node;
  p ← attr (prev n);
  modify p (set_next (next n)) ;;
  n ← load node;
  x ← attr (next n);
  modify x (set_prev (prev n)).

Definition _add_to_head (node : addr) : M () :=
  h ← self head;
  modify node (set_prev (Some h)) ;;
  hn ← load h;
  modify node (set_next (next hn)) ;;
  hn ← load h;
  x ← attr (next hn);
  modify x (set_prev (Some node)) ;;
  modify h (set_next (Some node)).

Definition _move_to_head (node : addr) : M () :=
  _remove_node node ;;
  _add_to_head node.

(** When [self.tail.prev] is [None] Python raises its AttributeError on the
    first line of [_remove_node]; the model raises it one step earlier, in
    the same state. *)
Definition _remove_tail : M addr :=
  t ← self tail;
  tn ← load t;
  lru_node ← attr (prev tn);
  _remove_node lru_node ;;
  mret lru_node.

Definition _is_expired (now : time) (n : Node) : bool := float_ge now (expire_time n).

(** The first loop of [_cleanup_expired]; [clock k] is the clock reading
    taken while the entry of key [k] is examined. *)
Fixpoint scan_expired (clock : K → time) (items : list (K * addr))
    (expired_keys : list K) : M (list K) :=
  match items with
  | [] => mret expired_keys
  | (k, node) :: items' =>
      n ← load node;
      if _is_expired (clock k) n
      then scan_expired clock items' (expired_keys ++ [k])
      else scan_expired clock items' expired_keys
  end.

(** The entries are visited in the order of [map_to_list], Python's dict in
    insertion order; the order only decides in which order the expired
    nodes are unlinked ([sweep_loop_run] below holds for any order). *)
Definition _cleanup_expired (clock : K → time) : M () :=
  c ← self cache;
  expired_keys ← scan_expired clock (map_to_list c) [];
  for_each (λ k, node ← dict_get k; _remove_node node ;; dict_del k) expired_keys.

Definition get (now : time) (k : K) : M V :=
  c ← self cache;
  match c !! k with
  | None => mret None_value
  | Some node =>
      n ← load node;
      if _is_expired now n then
        _remove_node node ;;
        dict_del k ;;
        mret None_value
      else
        _move_to_head node ;;
        n ← load node;
        mret (value n)
  end.

Definition len_cache : M Z := λ s, (Return (Z.of_nat (size (cache s))), s).

(** [now] is the clock reading of [put] itself, [clock] the readings of the
    sweep, should it run.  The sum [current_time_ms + ttl_ms] is the first
    thing computed after the check of the TTL, and its OverflowError leaves
    [put] before anything is written. *)
Definition put (now : time) (clock : K → time) (k : K) (v : V) (ttl_ms : Z) : M () :=
  if ttl_ms <=? 0 then raise (ValueError "TTL must be positive")
  else
    let current_time_ms := now in
    match float_add current_time_ms ttl_ms with
    | None => raise OverflowError
    | Some expire_time =>
        c ← self cache;
        match c !! k with
        | Some node =>
            modify node (set_value v) ;;
            modify node (set_expire_time expire_time) ;;
            _move_to_head node
        | None =>
            new_node ← alloc (mkNode k v expire_time None None);
            (n ← len_cache; cap ← self capacity;
             if n >=? cap then
               _cleanup_expired clock ;;
               n ← len_cache; cap ← self capacity;
               if n >=? cap then
                 lru_node ← _remove_tail;
                 ln ← load lru_node;
                 dict_del (key ln)
               else mret ()
             else mret ()) ;;
            dict_set k new_node ;;
            _add_to_head new_node
        end
    end.

Definition clear : M () :=
  (λ s, (Return (), with_cache ∅ s)) ;;
  h ← self head; t ← self tail;
  modify h (set_next (Some t)) ;;
  h ← self head; t ← self tail;
  modify t (set_prev (Some h)).

Definition size (s : LRUCacheWithTTL) : Z := Z.of_nat (base.size (cache s)).

(** ** Callers: operations on a cache, and the states they reach *)

Inductive op : Type :=
  | Get (now : time) (k : K)
  | Put (now : time) (clock : K → time) (k : K) (v : V) (ttl_ms : Z)
  | Clear.

(** An operation's result: [get]'s value, or [None] for [put] and [clear]. *)
Definition run (o : op) : M V :=
  match o with
  | Get now k => get now k
  | Put now clock k v ttl_ms => put now clock k v ttl_ms ;; mret None_value
  | Clear => clear ;; mret None_value
  end.

(** The state an operation leaves, whether it returned or raised (a caller
    may catch the exception and carry on with the same object). *)
Definition exec (o : op) (s : LRUCacheWithTTL) : LRUCacheWithTTL := (run o s).2.

Definition execs (os : list op) (s : LRUCacheWithTTL) : LRUCacheWithTTL :=
  foldl (λ s o, exec o s) s os.

Inductive reachable : LRUCacheWithTTL → Prop :=
  | reachable_init capacity s :
      __init__ capacity = inr s → reachable s
  | reachable_exec o s :
      reachable s → reachable (exec o s).

(** ** Reading the store *)

Definition nxt (st : gmap addr Node) (a : addr) : option addr := st !! a ≫= next.
Definition prv (st : gmap addr Node) (a : addr) : option addr := st !! a ≫= prev.

(** A record: key, value and expiry time of a node. *)
Definition record : Type := K * V * time.
Definition rkey (d : record) : K := d.1.1.
Definition rvalue (d : record) : V := d.1.2.
Definition rexpiry (d : record) : time := d.2.

Definition dat (st : gmap addr Node) (a : addr) : option record :=
  (λ n, (key n, value n, expire_time n)) <$> st !! a.

(** Following one pointer field from [a] until [stop]: the nodes strictly
    in between, in the order met. *)
Fixpoint walk (step : addr → option addr) (stop : addr) (fuel : nat) (a : addr)
    : option (list addr) :=
  match fuel with
  | O => None
  | S fuel' =>
      match step a with
      | None => None
      | Some b => if decide (b = stop) then Some [] else (b ::.) <$> walk step stop fuel' b
      end
  end.

(** The ledger read from [head] along [next], and from [tail] along [prev]. *)
Definition forward (s : LRUCacheWithTTL) : option (list addr) :=
  walk (nxt (store s)) (tail s) (base.size (store s)) (head s).
Definition backward (s : LRUCacheWithTTL) : option (list addr) :=
  walk (prv (store s)) (head s) (base.size (store s)) (tail s).

(** The records on the ledger, most recently used first. *)
Definition items (s : LRUCacheWithTTL) : option (list record) :=
  l ← forward s; mapM (dat (store s)) l.

(** ** The representation invariant *)

(** [links st a l]: starting at [a], the [next] fields lead through [l] in
    order and the [prev] fields lead back. *)
Fixpoint links (st : gmap addr Node) (a : addr) (l : list addr) : Prop :=
  match l with
  | [] => True
  | b :: l' => nxt st a = Some b ∧ prv st b = Some a ∧ links st b l'
  end.

Definition Ledger (st : gmap addr Node) (h t : addr) (l : list addr) : Prop :=
  NoDup (h :: l ++ [t]) ∧ links st h (l ++ [t]).

(** [Inv s l]: the ledger of [s] holds exactly the nodes [l] between the
    sentinels, the index maps each key to the one ledger node carrying it,
    and the entry count is within the positive capacity. *)
Record Inv (s : LRUCacheWithTTL) (l : list addr) : Prop := mkInv {
  inv_ledger : Ledger (store s) (head s) (tail s) l;
  inv_index : ∀ k a, cache s !! k = Some a ↔ a ∈ l ∧ rkey <$> dat (store s) a = Some k;
  inv_capacity : 0 < capacity s;
  inv_size : Z.of_nat (length l) ≤ capacity s
}.

(** [Repr s lm]: [Inv] holds of [s] and its ledger holds, from most to
    least recently used, the nodes [lm.*1] with the records [lm.*2]. *)
Definition Repr (s : LRUCacheWithTTL) (lm : list (addr * record)) : Prop :=
  Inv s (lm.*1) ∧ Forall (λ ad, dat (store s) ad.1 = Some ad.2) lm.

(** A record is live at the clock reading taken for its key when the test
    of [_is_expired] fails there. *)
Definition live (clock : K → time) (d : record) : Prop :=
  float_ge (clock (rkey d)) (rexpiry d) = false.

#[export] Instance live_dec clock d : Decision (live clock d).
Proof. unfold live. apply _. Defined.

(** What [put] of a new key leaves of the ledger [m] before it inserts:
    nothing is touched while there is room; otherwise the expired records
    are swept, and if that freed no slot the last one is dropped. *)
Definition make_room {A} (alive : A → Prop) `{!∀ x, Decision (alive x)}
    (capacity : Z) (m : list A) : list A :=
  if Z.of_nat (length m) >=? capacity then
    let swept := filter alive m in
    if Z.of_nat (length swept) >=? capacity then removelast swept else swept
  else m.

(** ** The structural invariant, as read off a state *)

(** Following [next] from [head] reaches [tail] through the nodes [l], and
    following [prev] from [tail] reaches [head] through the same nodes in
    reverse; the sentinels and the nodes are pairwise distinct; the index
    maps a key to a node exactly when that node is on the ledger and carries
    the key, so keys on the ledger are pairwise distinct and are the keys of
    the index. *)
Definition well_formed (s : LRUCacheWithTTL) : Prop :=
  ∃ l m,
    forward s = Some l ∧
    backward s = Some (reverse l) ∧
    mapM (dat (store s)) l = Some m ∧
    NoDup (head s :: l ++ [tail s]) ∧
    NoDup (rkey <$> m) ∧
    (∀ k a, cache s !! k = Some a ↔ a ∈ l ∧ rkey <$> dat (store s) a = Some k) ∧
    (∀ k, is_Some (cache s !! k) ↔ k ∈ rkey <$> m) ∧
    base.size (cache s) = length l.

(** ** Arguments of a [put], for scenarios made of several of them *)

(** [p_expiry] is the expiry the put stores, [float_add p_now p_ttl] in the
    scenarios below. *)
Record put_args : Type := mkPut {
  p_now : time;
  p_clock : K → time;
  p_key : K;
  p_value : V;
  p_ttl : Z;
  p_expiry : time
}.

Definition stores (p : put_args) : Prop :=
  float_add (p_now p) (p_ttl p) = Some (p_expiry p).

Definition Put_of (p : put_args) : op :=
  Put (p_now p) (p_clock p) (p_key p) (p_value p) (p_ttl p).

(** The record a [put] writes. *)
Definition record_of (p : put_args) : record :=
  (p_key p, p_value p, p_expiry p).

End LRU.

(** * The cache as a list of records

    What a caller can observe of the cache, written on the list of records
    from the most to the least recently used: the functions below are the
    reference the methods are compared with further down. *)

Section list_model.

Context `{Countable K} {V : Type} {time : Type}.
Variable None_value : V.
Variable float_ge : time → time → bool.
Variable float_add : time → Z → option time.

Fixpoint lookup_record (k : K) (m : list (@record K V time)) : option (@record K V time) :=
  match m with
  | [] => None
  | d :: m' => if decide (rkey d = k) then Some d else lookup_record k m'
  end.

Definition remove_key (k : K) (m : list (@record K V time)) : list (@record K V time) :=
  filter (λ d, rkey d ≠ k) m.

Definition list_get (now : time) (k : K) (m : list (@record K V time))
    : V * list (@record K V time) :=
  match lookup_record k m with
  | None => (None_value, m)
  | Some d =>
      if float_ge now (rexpiry d) then (None_value, remove_key k m)
      else (rvalue d, d :: remove_key k m)
  end.

Definition list_put (capacity : Z) (now : time) (clock : K → time) (k : K) (v : V)
    (ttl_ms : Z) (m : list (@record K V time)) : outcome V * list (@record K V time) :=
  if ttl_ms <=? 0 then (Raise (ValueError "TTL must be positive"), m)
  else
    match float_add now ttl_ms with
    | None => (Raise OverflowError, m)
    | Some expire_time =>
        match lookup_record k m with
        | Some _ => (Return None_value, (k, v, expire_time) :: remove_key k m)
        | None =>
            (Return None_value,
             (k, v, expire_time) :: make_room (live float_ge clock) capacity m)
        end
    end.

Definition list_run (capacity : Z) (o : @op K V time) (m : list (@record K V time))
    : outcome V * list (@record K V time) :=
  match o with
  | Get now k => let '(r, m') := list_get now k m in (Return r, m')
  | Put now clock k v ttl_ms => list_put capacity now clock k v ttl_ms m
  | Clear => (Return None_value, [])
  end.

(** The outcomes of a sequence of calls, on the list and on the cache. *)
Fixpoint list_results (capacity : Z) (os : list (@op K V time))
    (m : list (@record K V time)) : list (outcome V) :=
  match os with
  | [] => []
  | o :: os' => (list_run capacity o m).1 :: list_results capacity os' (list_run capacity o m).2
  end.

Fixpoint results (os : list (@op K V time)) (s : @LRUCacheWithTTL K _ _ V time)
    : list (outcome V) :=
  match os with
  | [] => []
  | o :: os' =>
      (run None_value float_ge float_add o s).1
      :: results os' (exec None_value float_ge float_add o s)
  end.

End list_model.

(** * Python floats of integer value

    An instance of the time parameters: the doubles whose value is an
    integer, and the two infinities. *)

Inductive pyfloat : Type :=
  | Fin (z : Z)
  | PInf
  | NInf.

(** The nearest double of an integer, ties to the even significand of 53 bits. *)
Definition round53 (z : Z) : Z :=
  let a := Z.abs z in
  if a <? 2 ^ 53 then z
  else
    let sh := Z.log2 a - 52 in
    let q := a / 2 ^ sh in
    let r := a mod 2 ^ sh in
    let half := 2 ^ (sh - 1) in
    let q' := if (half <? r) || ((r =? half) && Z.odd q) then q + 1 else q in
    Z.sgn z * (q' * 2 ^ sh).

(** The conversion of an int to a float: it raises OverflowError ([None])
    when the rounded value is beyond the largest double. *)
Definition float_of_int (n : Z) : option Z :=
  let r := round53 n in
  if 2 ^ 1024 <=? Z.abs r then None else Some r.

(** The double of a rounded sum: an infinity beyond the largest double. *)
Definition of_rounded (z : Z) : pyfloat :=
  if 2 ^ 1024 <=? z then PInf else if z <=? - 2 ^ 1024 then NInf else Fin z.

(** [x + n] for a float [x] and an int [n]. *)
Definition pyfloat_add (x : pyfloat) (n : Z) : option pyfloat :=
  match float_of_int n with
  | None => None
  | Some r =>
      Some match x with
           | Fin z => of_rounded (round53 (z + r))
           | PInf => PInf
           | NInf => NInf
           end
  end.

(** [x >= y]. *)
Definition pyfloat_ge (x y : pyfloat) : bool :=
  match x, y with
  | Fin a, Fin b => a >=? b
  | _, NInf => true
  | PInf, _ => true
  | _, _ => false
  end.

(** * Concrete caches

    Keys are optional strings and values optional integers, [None] being
    Python's [None]; these are the caches of the module's own tests, used
    below to run the model and to instantiate the theorems. *)

Abbreviation pykey := (option string).
Abbreviation pyvalue := (option Z).

Abbreviation py_cache := (@LRUCacheWithTTL pykey _ _ pyvalue pyfloat).
Abbreviation py_init := (__init__ (K:=pykey) (V:=pyvalue) None None (Fin 0)).
Abbreviation py_get := (get (K:=pykey) (V:=pyvalue) None pyfloat_ge).
Abbreviation py_put := (put (K:=pykey) (V:=pyvalue) pyfloat_ge pyfloat_add).
Abbreviation py_sweep := (_cleanup_expired (K:=pykey) (V:=pyvalue) pyfloat_ge).
Abbreviation py_run := (run (K:=pykey) (V:=pyvalue) None pyfloat_ge pyfloat_add).
Abbreviation py_exec := (exec (K:=pykey) (V:=pyvalue) None pyfloat_ge pyfloat_add).
Abbreviation py_execs := (execs (K:=pykey) (V:=pyvalue) None pyfloat_ge pyfloat_add).
Abbreviation py_results := (results (K:=pykey) (V:=pyvalue) None pyfloat_ge pyfloat_add).
Abbreviation py_reachable :=
  (reachable (K:=pykey) (V:=pyvalue) None None (Fin 0) pyfloat_ge pyfloat_add).

(** [LRUCacheWithTTL(2)]. *)
Definition cache2 : py_cache :=
  mkCache 2 ∅ 0%nat 1%nat
    (<[1%nat := mkNode None None (Fin 0) (Some 0%nat) None]>
       {[0%nat := mkNode None None (Fin 0) None (Some 1%nat)]}).

Definition at_time (now : Z) : pykey → pyfloat := λ _, Fin now.

Definition put_a : @put_args pykey pyvalue pyfloat :=
  mkPut (Fin 0) (at_time 0) (Some "a") (Some 1) 50 (Fin 50).
Definition put_b : @put_args pykey pyvalue pyfloat :=
  mkPut (Fin 0) (at_time 0) (Some "b") (Some 2) 5000 (Fin 5000).
Definition put_c : @put_args pykey pyvalue pyfloat :=
  mkPut (Fin 60) (at_time 60) (Some "c") (Some 3) 5000 (Fin 5060).
Definition put_d : @put_args pykey pyvalue pyfloat :=
  mkPut (Fin 20) (at_time 20) (Some "d") (Some 4) 5000 (Fin 5020).

(** A TTL too large for a float. *)
Definition huge_ttl : Z := 10 ^ 400.

(** capacity 2; put("a", 1, 50) at time 0. *)
Definition cache_a : py_cache := py_execs [Put_of put_a] cache2.

(** capacity 2; put("a", 1, 50); put("b", 2, 5000), both at time 0. *)
Definition cache_ab : py_cache := py_execs [Put_of put_a; Put_of put_b] cache2.

Definition record_a : @record pykey pyvalue pyfloat := (Some "a", Some 1, Fin 50).
Definition record_b : @record pykey pyvalue pyfloat := (Some "b", Some 2, Fin 5000).
Definition record_c : @record pykey pyvalue pyfloat := (Some "c", Some 3, Fin 5060).

(** * Proofs *)

Section proofs.

Context `{Countable K} {V : Type} {time : Type}.
Variable None_key : K.
Variable None_value : V.
Variable time_zero : time.
Variable float_ge : time → time → bool.
Variable float_add : time → Z → option time.

#[local] Abbreviation Node := (@Node K V time).
#[local] Abbreviation LRUCacheWithTTL := (@LRUCacheWithTTL K _ _ V time).
#[local] Abbreviation M := (@M K _ _ V time).
#[local] Abbreviation record := (@record K V time).

Implicit Types (s : LRUCacheWithTTL) (st : gmap addr Node) (n : Node).
Implicit Types (a b x p q h t : addr) (l : list addr) (k : K) (v : V).
Implicit Types (d : record) (lm : list (addr * record)).

(** ** Running the monad *)

Lemma run_bind {A B} (m : M A) (f : A → M B) s :
  (m ≫= f) s =
  match m s with
  | (Return r, s') => f r s'
  | (Raise e, s') => (Raise e, s')
  end.
Proof. reflexivity. Qed.

Lemma bind_Return {A B} (m : M A) (f : A → M B) s (r : A) s' :
  m s = (Return r, s') → (m ≫= f) s = f r s'.
Proof. intros Hm. rewrite run_bind, Hm. reflexivity. Qed.

Lemma load_Some a n s : store s !! a = Some n → load a s = (Return n, s).
Proof. unfold load. intros ->. reflexivity. Qed.

Lemma modify_Some a f n s :
  store s !! a = Some n →
  modify a f s = (Return (), with_store (<[a := f n]> (store s)) s).
Proof. unfold modify. intros ->. reflexivity. Qed.

(** ** Fields of the store after an assignment *)

Lemma nxt_insert st c n z :
  nxt (<[c := n]> st) z = if decide (z = c) then next n else nxt st z.
Proof. unfold nxt. rewrite lookup_insert. repeat case_decide; congruence || done. Qed.

Lemma prv_insert st c n z :
  prv (<[c := n]> st) z = if decide (z = c) then prev n else prv st z.
Proof. unfold prv. rewrite lookup_insert. repeat case_decide; congruence || done. Qed.

Lemma dat_insert st c n z :
  dat (<[c := n]> st) z =
  if decide (z = c) then Some (key n, value n, expire_time n) else dat st z.
Proof. unfold dat. rewrite lookup_insert. repeat case_decide; congruence || done. Qed.

Lemma nxt_Some st a b : nxt st a = Some b → ∃ n, st !! a = Some n ∧ next n = Some b.
Proof. unfold nxt. destruct (st !! a) as [n|]; [eauto | done]. Qed.

Lemma prv_Some st a b : prv st a = Some b → ∃ n, st !! a = Some n ∧ prev n = Some b.
Proof. unfold prv. destruct (st !! a) as [n|]; [eauto | done]. Qed.

Lemma dat_Some st a d :
  dat st a = Some d ↔ ∃ n, st !! a = Some n ∧ d = (key n, value n, expire_time n).
Proof.
  unfold dat. destruct (st !! a) as [n|]; simpl; split.
  - intros [= <-]. eauto.
  - intros (n' & [= <-] & ->). done.
  - done.
  - intros (? & ? & ?). done.
Qed.

Lemma dat_is_Some st a : is_Some (dat st a) ↔ is_Some (st !! a).
Proof. unfold dat. by rewrite fmap_is_Some. Qed.

(** ** Chains of links *)

Lemma links_app st a l1 l2 p :
  last (a :: l1) = Some p →
  links st a (l1 ++ l2) ↔ links st a l1 ∧ links st p l2.
Proof.
  revert a. induction l1 as [|c l1 IH]; intros a Hp; simpl in *.
  - injection Hp as ->. tauto.
  - rewrite (IH c) by done. tauto.
Qed.

Lemma links_frame_all st st' a l :
  links st a l →
  (∀ z, z ∈ a :: l → nxt st' z = nxt st z) →
  (∀ z, z ∈ l → prv st' z = prv st z) →
  links st' a l.
Proof.
  revert a. induction l as [|b l IH]; intros a Hl Hn Hp; [done|].
  destruct Hl as (Hab & Hba & Hl). simpl. split_and!.
  - rewrite Hn; [done | left].
  - rewrite Hp; [done | left].
  - apply IH; [done | intros z Hz; apply Hn; by right | intros z Hz; apply Hp; by right].
Qed.

(** The [next] field of the last node of a chain is not part of it. *)
Lemma links_frame st st' a l p :
  NoDup (a :: l) →
  last (a :: l) = Some p →
  links st a l →
  (∀ z, z ∈ a :: l → z ≠ p → nxt st' z = nxt st z) →
  (∀ z, z ∈ l → prv st' z = prv st z) →
  links st' a l.
Proof.
  revert a. induction l as [|b l IH]; intros a Hnd Hlast Hl Hn Hp; [done|].
  destruct Hl as (Hab & Hba & Hl). simpl.
  apply NoDup_cons in Hnd as [Ha Hnd].
  assert (p ∈ b :: l) as Hpin by (apply last_Some_elem_of; done).
  split_and!.
  - rewrite Hn; [done | left | intros ->; done].
  - rewrite Hp; [done | left].
  - apply IH; [done | done | done | intros z Hz; apply Hn; by right | intros z Hz; apply Hp; by right].
Qed.

Lemma links_remove st st' h l1 x q r p :
  NoDup (h :: l1 ++ x :: q :: r) →
  last (h :: l1) = Some p →
  links st h (l1 ++ x :: q :: r) →
  (∀ z, nxt st' z = if decide (z = p) then Some q else nxt st z) →
  (∀ z, prv st' z = if decide (z = q) then Some p else prv st z) →
  links st' h (l1 ++ q :: r).
Proof.
  intros Hnd Hlast Hl Hn Hp.
  apply (links_app _ _ _ _ p Hlast) in Hl.
  apply (links_app _ _ _ _ p Hlast).
  destruct Hl as (Hl1 & Hpx & Hxp & Hxq & Hqx & Hr).
  assert (p ∈ h :: l1) as Hpin by (apply last_Some_elem_of; done).
  rewrite app_comm_cons in Hnd.
  apply NoDup_app in Hnd as (Hnd1 & Hdisj & Hnd2).
  apply NoDup_cons in Hnd2 as [Hx Hnd2].
  apply NoDup_cons in Hnd2 as [Hq Hnd2].
  assert (q ∉ h :: l1) as Hq1.
  { intros Hin. apply (Hdisj _ Hin). right. left. }
  split; [|simpl; split_and!].
  - eapply links_frame; [done | done | done | |].
    + intros z Hz Hzp. rewrite Hn. by case_decide.
    + intros z Hz. rewrite Hp. case_decide; [subst; exfalso; apply Hq1; by right | done].
  - rewrite Hn. by case_decide.
  - rewrite Hp. by case_decide.
  - eapply links_frame_all; [done | |].
    + intros z Hz. rewrite Hn. case_decide; [|done].
      subst. exfalso. apply (Hdisj _ Hpin). by right.
    + intros z Hz. rewrite Hp. case_decide; [subst; done | done].
Qed.

Lemma links_push st st' h x f r :
  NoDup (h :: x :: f :: r) →
  links st h (f :: r) →
  (∀ z, nxt st' z =
        if decide (z = h) then Some x else if decide (z = x) then Some f else nxt st z) →
  (∀ z, prv st' z =
        if decide (z = f) then Some x else if decide (z = x) then Some h else prv st z) →
  links st' h (x :: f :: r).
Proof.
  intros Hnd (Hhf & Hfh & Hr) Hn Hp.
  apply NoDup_cons in Hnd as [Hh Hnd].
  apply NoDup_cons in Hnd as [Hx Hnd].
  apply NoDup_cons in Hnd as [Hf Hnd].
  assert (x ≠ h) by (intros ->; apply Hh; left).
  assert (f ≠ h) by (intros ->; apply Hh; right; left).
  assert (f ≠ x) by (intros ->; apply Hx; left).
  simpl. split_and!.
  - rewrite Hn. by case_decide.
  - rewrite Hp. repeat case_decide; congruence.
  - rewrite Hn. repeat case_decide; congruence.
  - rewrite Hp. by case_decide.
  - eapply links_frame_all; [done | |].
    + intros z Hz. rewrite Hn. repeat case_decide; subst; try done.
      exfalso. apply Hh. by right.
    + intros z Hz. rewrite Hp. repeat case_decide; subst; try done.
      exfalso. apply Hx. by right.
Qed.

(** ** Stepping through a method *)

Lemma bind_step {A B} (m : M A) (f : A → M B) s (r : A) s' R :
  m s = (Return r, s') → f r s' = R → (m ≫= f) s = R.
Proof. intros Hm <-. by apply bind_Return. Qed.

Lemma self_run {A} (f : LRUCacheWithTTL → A) s : self f s = (Return (f s), s).
Proof. reflexivity. Qed.

Lemma attr_Some o a s : o = Some a → attr (K:=K) (V:=V) o s = (Return a, s).
Proof. by intros ->. Qed.

Ltac lk :=
  simpl;
  repeat first [rewrite lookup_insert_eq | rewrite lookup_insert_ne by congruence];
  first [eassumption | reflexivity].

Ltac prim :=
  first [ apply self_run
        | apply load_Some; lk
        | apply modify_Some; lk
        | apply attr_Some; simpl; eassumption ].

Ltac step := eapply bind_step; [prim | cbv beta].

(** ** The list primitives on the store *)

Lemma _remove_node_spec s x p q :
  prv (store s) x = Some p → nxt (store s) x = Some q →
  is_Some (store s !! p) → is_Some (store s !! q) →
  x ≠ p → x ≠ q → p ≠ q →
  ∃ st', _remove_node x s = (Return (), with_store st' s) ∧
    (∀ z, nxt st' z = if decide (z = p) then Some q else nxt (store s) z) ∧
    (∀ z, prv st' z = if decide (z = q) then Some p else prv (store s) z) ∧
    (∀ z, dat st' z = dat (store s) z).
Proof.
  intros (nx & Hx & Hxp)%prv_Some (nx' & Hx' & Hxq)%nxt_Some [np Hp] [nq Hq] Hne1 Hne2 Hne3.
  assert (nx' = nx) as -> by congruence.
  eexists. split; [|split_and!].
  - unfold _remove_node. do 5 step. etrans; [apply modify_Some; lk | reflexivity].
  - intros z. simpl. rewrite !nxt_insert. simpl. unfold nxt.
    repeat case_decide; subst; rewrite ?Hq; simpl; congruence.
  - intros z. simpl. rewrite !prv_insert. simpl. unfold prv.
    repeat case_decide; subst; rewrite ?Hp; simpl; congruence.
  - intros z. simpl. rewrite !dat_insert. simpl. unfold dat.
    repeat case_decide; subst; rewrite ?Hp, ?Hq; simpl; congruence.
Qed.

Lemma _add_to_head_spec s x f :
  is_Some (store s !! x) → nxt (store s) (head s) = Some f →
  is_Some (store s !! f) →
  x ≠ head s → x ≠ f → f ≠ head s →
  ∃ st', _add_to_head x s = (Return (), with_store st' s) ∧
    (∀ z, nxt st' z =
          if decide (z = head s) then Some x
          else if decide (z = x) then Some f else nxt (store s) z) ∧
    (∀ z, prv st' z =
          if decide (z = f) then Some x
          else if decide (z = x) then Some (head s) else prv (store s) z) ∧
    (∀ z, dat st' z = dat (store s) z).
Proof.
  intros [nx Hx] (nh & Hh & Hhf)%nxt_Some [nf Hf] Hne1 Hne2 Hne3.
  eexists. split; [|split_and!].
  - unfold _add_to_head. do 7 step. etrans; [apply modify_Some; lk | reflexivity].
  - intros z. simpl. rewrite !nxt_insert. simpl. unfold nxt.
    repeat case_decide; subst; rewrite ?Hf; simpl; congruence.
  - intros z. simpl. rewrite !prv_insert. simpl. unfold prv.
    repeat case_decide; subst; rewrite ?Hh; simpl; congruence.
  - intros z. simpl. rewrite !dat_insert. simpl. unfold dat.
    repeat case_decide; subst; rewrite ?Hx, ?Hh, ?Hf; simpl; congruence.
Qed.

(** ** The ledger under unlinking and pushing *)

Lemma links_in_store st a b l z :
  links st a (b :: l) → z ∈ a :: b :: l → is_Some (st !! z).
Proof.
  revert a b. induction l as [|c l IH]; intros a b (Hab & Hba & Hl) Hz.
  - apply nxt_Some in Hab as (? & ? & _). apply prv_Some in Hba as (? & ? & _).
    apply elem_of_cons in Hz as [->|Hz]; [eauto|].
    apply list_elem_of_singleton in Hz as ->. eauto.
  - apply elem_of_cons in Hz as [->|Hz]; [|by eapply IH].
    apply nxt_Some in Hab as (? & ? & _). eauto.
Qed.

Lemma Ledger_in_store st h t l z :
  Ledger st h t l → z ∈ h :: l ++ [t] → is_Some (st !! z).
Proof.
  intros [_ Hl] Hz. destruct (l ++ [t]) as [|b r] eqn:E.
  - by destruct l.
  - by eapply links_in_store.
Qed.

Lemma snoc_is_cons l t : ∃ b r, l ++ [t] = b :: r.
Proof. destruct l; simpl; eauto. Qed.

Lemma unlink s l1 x l2 :
  Ledger (store s) (head s) (tail s) (l1 ++ x :: l2) →
  ∃ st', _remove_node x s = (Return (), with_store st' s) ∧
    Ledger st' (head s) (tail s) (l1 ++ l2) ∧
    (∀ z, dat st' z = dat (store s) z).
Proof.
  intros [Hnd Hl].
  rewrite <- app_assoc in Hnd, Hl. simpl in Hnd, Hl.
  destruct (snoc_is_cons l2 (tail s)) as (q & r & E). rewrite E in Hnd, Hl.
  destruct (last (head s :: l1)) as [p|] eqn:Hlast;
    [|by apply last_None in Hlast].
  pose proof Hl as Hl'.
  apply (links_app _ _ _ _ p Hlast) in Hl' as (Hl1 & Hpx & Hxp & Hxq & Hqx & Hr).
  assert (p ∈ head s :: l1) as Hpin by (by apply last_Some_elem_of).
  pose proof Hnd as Hnd'.
  rewrite app_comm_cons in Hnd'.
  apply NoDup_app in Hnd' as (Hnd1 & Hdisj & Hnd2).
  apply NoDup_cons in Hnd2 as [Hx Hnd2].
  assert (x ≠ p) by (intros ->; apply (Hdisj _ Hpin); left).
  assert (x ≠ q) by (intros ->; apply Hx; left).
  assert (p ≠ q) by (intros ->; apply (Hdisj _ Hpin); right; left).
  destruct (_remove_node_spec s x p q) as (st' & Hrun & Hn & Hp & Hd); try done.
  { apply nxt_Some in Hpx as (? & ? & _). eauto. }
  { apply prv_Some in Hqx as (? & ? & _). eauto. }
  exists st'. split_and!; [done | | done].
  split.
  - rewrite <- app_assoc, E.
    rewrite app_comm_cons. apply NoDup_app. split_and!; [done | | done].
    intros z Hz1 Hz2. apply (Hdisj z Hz1). by right.
  - rewrite <- app_assoc, E. by eapply links_remove.
Qed.

Lemma push s l x :
  Ledger (store s) (head s) (tail s) l →
  x ∉ head s :: l ++ [tail s] →
  is_Some (store s !! x) →
  ∃ st', _add_to_head x s = (Return (), with_store st' s) ∧
    Ledger st' (head s) (tail s) (x :: l) ∧
    (∀ z, dat st' z = dat (store s) z).
Proof.
  intros Hled Hx Hxs. pose proof Hled as [Hnd Hl].
  destruct (snoc_is_cons l (tail s)) as (f & r & E). rewrite E in Hnd, Hl, Hx.
  pose proof Hl as (Hhf & Hfh & Hr).
  assert (x ≠ head s) by (intros ->; apply Hx; left).
  assert (x ≠ f) by (intros ->; apply Hx; right; left).
  assert (f ≠ head s).
  { intros ->. apply NoDup_cons in Hnd as [Hh _]. apply Hh. left. }
  destruct (_add_to_head_spec s x f) as (st' & Hrun & Hn & Hp & Hd); try done.
  { apply prv_Some in Hfh as (? & ? & _). eauto. }
  exists st'. split_and!; [done | | done].
  assert (NoDup (head s :: x :: f :: r)) as Hnd'.
  { apply NoDup_cons in Hnd as [Hh Hnd]. apply NoDup_cons. split.
    - intros Hin. apply elem_of_cons in Hin as [?|?]; congruence.
    - apply NoDup_cons. split; [|done]. intros Hin. apply Hx. by right. }
  split; simpl; rewrite E; [done|]. by eapply links_push.
Qed.

Lemma Ledger_ext st st' h t l :
  Ledger st h t l →
  (∀ z, z ∈ h :: l ++ [t] → nxt st' z = nxt st z ∧ prv st' z = prv st z) →
  Ledger st' h t l.
Proof.
  intros [Hnd Hl] Hext. split; [done|].
  eapply links_frame_all; [done | |].
  - intros z Hz. by apply Hext.
  - intros z Hz. apply Hext. by right.
Qed.

(** ** The representation under the methods' steps *)

Lemma Repr_dat s lm a d : Repr s lm → (a, d) ∈ lm → dat (store s) a = Some d.
Proof.
  intros [_ HF] Hin. rewrite Forall_forall in HF. apply (HF _ Hin).
Qed.

Lemma Repr_lookup s lm k a :
  Repr s lm → cache s !! k = Some a ↔ ∃ d, (a, d) ∈ lm ∧ rkey d = k.
Proof.
  intros HR. pose proof HR as [HI HF]. rewrite (inv_index _ _ HI). split.
  - intros [Hin Hk]. apply list_elem_of_fmap in Hin as ([a' d] & -> & Hin).
    simpl in *. exists d. split; [done|]. rewrite (Repr_dat _ _ _ _ HR Hin) in Hk.
    simpl in Hk. congruence.
  - intros (d & Hin & <-). split.
    + apply list_elem_of_fmap. by exists (a, d).
    + by rewrite (Repr_dat _ _ _ _ HR Hin).
Qed.

Lemma Repr_split s lm k a :
  Repr s lm → cache s !! k = Some a →
  ∃ lm1 d lm2, lm = lm1 ++ (a, d) :: lm2 ∧ rkey d = k.
Proof.
  intros HR Hk. apply (Repr_lookup _ _ _ _ HR) in Hk as (d & Hin & Hd).
  apply list_elem_of_split in Hin as (lm1 & lm2 & ->). eauto.
Qed.

Lemma Repr_lookup_None s lm k :
  Repr s lm → cache s !! k = None ↔ k ∉ rkey <$> lm.*2.
Proof.
  intros HR. split.
  - intros Hk Hin. apply list_elem_of_fmap in Hin as (d & -> & Hin).
    apply list_elem_of_fmap in Hin as ([a d'] & -> & Hin).
    assert (cache s !! rkey d' = Some a) as Hs; [|simpl in *; congruence].
    apply (Repr_lookup _ _ _ _ HR). eauto.
  - intros Hk. destruct (cache s !! k) as [a|] eqn:E; [|done].
    apply (Repr_lookup _ _ _ _ HR) in E as (d & Hin & <-).
    exfalso. apply Hk. apply list_elem_of_fmap. exists d. split; [done|].
    apply list_elem_of_fmap. by exists (a, d).
Qed.

Lemma Repr_remove s lm1 a d lm2 :
  Repr s (lm1 ++ (a, d) :: lm2) →
  ∃ st', _remove_node a s = (Return (), with_store st' s) ∧
    (∀ z, dat st' z = dat (store s) z) ∧
    cache s !! rkey d = Some a ∧
    Repr (with_cache (delete (rkey d) (cache s)) (with_store st' s)) (lm1 ++ lm2).
Proof.
  intros HR.
  assert (cache s !! rkey d = Some a) as Hka.
  { apply (Repr_lookup _ _ _ _ HR). exists d. split; [|done].
    apply elem_of_app. right. left. }
  pose proof HR as [HI HF].
  rewrite fmap_app, fmap_cons in HI. simpl in HI.
  destruct HI as [Hled Hidx Hcap Hsz].
  destruct (unlink s _ _ _ Hled) as (st' & Hrun & Hled' & Hd).
  exists st'. split_and!; try done.
  assert (a ∉ lm1.*1 ++ lm2.*1) as Hnotin.
  { destruct Hled as [Hnd _]. apply NoDup_cons in Hnd as [_ Hnd].
    apply NoDup_app in Hnd as [Hnd _].
    apply NoDup_app in Hnd as (_ & Hdisj & Hnd2).
    apply NoDup_cons in Hnd2 as [Ha _].
    intros [Hin|Hin]%elem_of_app; [|done]. apply (Hdisj _ Hin). left. }
  split.
  - rewrite fmap_app. split; simpl; [done | | done |].
    + intros k' a'. rewrite Hd, lookup_delete. case_decide as Hkk.
      * subst k'. split; [done|]. intros [Hin Hk].
        assert (cache s !! rkey d = Some a') as Hka'.
        { apply Hidx. split; [|done].
          apply elem_of_app in Hin as [?|?]; apply elem_of_app; [by left|].
          right. by right. }
        congruence.
      * rewrite Hidx. split.
        -- intros [Hin Hk]. split; [|done].
           apply elem_of_app in Hin as [?|Hin]; apply elem_of_app; [by left|].
           apply elem_of_cons in Hin as [->|?]; [|by right].
           exfalso. apply Hkk.
           assert (cache s !! k' = Some a) as Hka' by (apply Hidx; split;
             [apply elem_of_app; right; left | done]).
           destruct (Hidx (rkey d) a) as [Hfw _]. specialize (Hfw Hka) as [_ Hfw].
           congruence.
        -- intros [Hin Hk]. split; [|done].
           apply elem_of_app in Hin as [?|?]; apply elem_of_app; [by left|].
           right. by right.
    + rewrite length_app in *. simpl in Hsz. lia.
  - apply Forall_app in HF as [HF1 HF2]. apply Forall_cons in HF2 as [_ HF2].
    apply Forall_app. split; (eapply Forall_impl; [eassumption|]);
      intros ad Had; simpl; by rewrite Hd.
Qed.

Lemma NoDup_ledger_middle h t l1 x l2 :
  NoDup (h :: (l1 ++ x :: l2) ++ [t]) → x ∉ h :: (l1 ++ l2) ++ [t].
Proof.
  intros Hnd Hin.
  apply NoDup_cons in Hnd as [Hh Hnd].
  rewrite <- app_assoc in Hnd. simpl in Hnd.
  apply NoDup_app in Hnd as (_ & Hdisj & Hnd2).
  apply NoDup_cons in Hnd2 as [Hx _].
  apply elem_of_cons in Hin as [->|Hin].
  - apply Hh. rewrite <- app_assoc. apply elem_of_app. right. left.
  - rewrite <- app_assoc in Hin. apply elem_of_app in Hin as [Hin|Hin]; [|done].
    apply (Hdisj _ Hin). left.
Qed.

Lemma Repr_move s lm1 a d lm2 :
  Repr s (lm1 ++ (a, d) :: lm2) →
  ∃ st', _move_to_head a s = (Return (), with_store st' s) ∧
    (∀ z, dat st' z = dat (store s) z) ∧
    Repr (with_store st' s) ((a, d) :: lm1 ++ lm2).
Proof.
  intros HR. pose proof HR as [HI HF].
  rewrite fmap_app, fmap_cons in HI. simpl in HI.
  destruct HI as [Hled Hidx Hcap Hsz].
  destruct (unlink s _ _ _ Hled) as (st1 & Hrun1 & Hled1 & Hd1).
  destruct (push (with_store st1 s) (lm1.*1 ++ lm2.*1) a) as (st2 & Hrun2 & Hled2 & Hd2).
  - done.
  - apply NoDup_ledger_middle. by destruct Hled.
  - apply dat_is_Some. simpl. rewrite Hd1.
    rewrite (Repr_dat _ _ a d HR); [done|]. apply elem_of_app. right. left.
  - simpl in *. exists st2. split_and!.
    + unfold _move_to_head. eapply bind_step; [exact Hrun1|]. exact Hrun2.
    + intros z. by rewrite Hd2, Hd1.
    + split.
      * rewrite fmap_cons, fmap_app. split; simpl; [done | | done |].
        -- intros k' a'. rewrite Hd2, Hd1, Hidx.
           rewrite !elem_of_cons, !elem_of_app, !elem_of_cons. tauto.
        -- rewrite length_app in *. simpl in *. lia.
      * eapply Forall_impl with (P := λ ad, dat (store s) ad.1 = Some ad.2).
        -- apply Forall_app in HF as [HF1 HF2]. apply Forall_cons in HF2 as [HFa HF2].
           apply Forall_cons. split; [done|]. by apply Forall_app.
        -- intros ad Had. simpl. by rewrite Hd2, Hd1.
Qed.

Lemma Repr_insert s lm k a d :
  Repr s lm →
  cache s !! k = None →
  a ∉ head s :: lm.*1 ++ [tail s] →
  dat (store s) a = Some d → rkey d = k →
  Z.of_nat (S (length lm)) ≤ capacity s →
  ∃ st', _add_to_head a (with_cache (<[k := a]> (cache s)) s) =
           (Return (), with_store st' (with_cache (<[k := a]> (cache s)) s)) ∧
    (∀ z, dat st' z = dat (store s) z) ∧
    Repr (with_store st' (with_cache (<[k := a]> (cache s)) s)) ((a, d) :: lm).
Proof.
  intros HR Hk Ha Hd Hdk Hsz'. pose proof HR as [HI HF].
  destruct HI as [Hled Hidx Hcap Hsz].
  destruct (push (with_cache (<[k := a]> (cache s)) s) (lm.*1) a)
    as (st' & Hrun & Hled' & Hd'); [done | done | |].
  { apply dat_is_Some. simpl. by rewrite Hd. }
  simpl in *. exists st'. split_and!; [done | done |].
  split.
  - rewrite fmap_cons. split; simpl; [done | | done |].
    + intros k' a'. rewrite Hd', lookup_insert, elem_of_cons. case_decide as Hkk.
      * subst k'. split.
        -- intros [= <-]. split; [by left|]. by rewrite Hd, <- Hdk.
        -- intros [[->|Hin] Hk']; [done|].
           assert (cache s !! k = Some a') by (by apply Hidx). congruence.
      * rewrite Hidx. split; [intros [? ?]; by split; [right|]|].
        intros [[->|Hin] Hk']; [|done].
        rewrite Hd in Hk'. simpl in Hk'. congruence.
    + rewrite length_fmap in *. lia.
  - apply Forall_cons. split; simpl; [by rewrite Hd'|].
    eapply Forall_impl; [exact HF|]. intros ad Had. simpl. by rewrite Hd'.
Qed.

Lemma Repr_store_ext s lm st' :
  Repr s lm →
  (∀ z, z ∈ head s :: lm.*1 ++ [tail s] →
        nxt st' z = nxt (store s) z ∧ prv st' z = prv (store s) z ∧
        dat st' z = dat (store s) z) →
  Repr (with_store st' s) lm.
Proof.
  intros [[Hled Hidx Hcap Hsz] HF] Hext. split.
  - split; simpl; [| | done | done].
    + eapply Ledger_ext; [done|]. intros z Hz. split; by apply Hext.
    + intros k a. rewrite Hidx. split; intros [Hin Hk]; (split; [done|]).
      * destruct (Hext a) as (_ & _ & ->); [|done]. right. apply elem_of_app. by left.
      * destruct (Hext a) as (_ & _ & <-); [|done]. right. apply elem_of_app. by left.
  - rewrite Forall_forall in HF |- *. intros [a d] Hin. simpl.
    destruct (Hext a) as (_ & _ & ->); [|by apply (HF _ Hin)].
    right. apply elem_of_app. left. apply list_elem_of_fmap. by exists (a, d).
Qed.

Lemma Inv_size s l : Inv s l → base.size (cache s) = length l.
Proof.
  intros [Hled Hidx _ _].
  rewrite <- length_map_to_list, <- (length_fmap snd).
  apply Permutation_length, NoDup_Permutation.
  - apply NoDup_fmap_2_strong; [|apply NoDup_map_to_list].
    intros [k1 a1] [k2 a2] H1%elem_of_map_to_list H2%elem_of_map_to_list E.
    simpl in E. subst a2.
    apply Hidx in H1 as [_ H1]. apply Hidx in H2 as [_ H2]. congruence.
  - destruct Hled as [Hnd _]. apply NoDup_cons in Hnd as [_ Hnd].
    by apply NoDup_app in Hnd as [Hnd _].
  - intros a. rewrite list_elem_of_fmap. split.
    + intros ([k a'] & -> & Hin%elem_of_map_to_list). simpl. by apply Hidx in Hin as [? _].
    + intros Hin.
      destruct (Ledger_in_store _ _ _ _ a Hled) as [n Hn].
      { right. apply elem_of_app. by left. }
      exists (key n, a). split; [done|]. apply elem_of_map_to_list, Hidx.
      split; [done|]. unfold dat. by rewrite Hn.
Qed.

Lemma Repr_size s lm : Repr s lm → size s = Z.of_nat (length lm).
Proof.
  intros [HI _]. unfold size. by rewrite (Inv_size _ _ HI), length_fmap.
Qed.

Lemma Repr_NoDup_fst s lm : Repr s lm → NoDup lm.*1.
Proof.
  intros [[[Hnd _] _ _ _] _]. apply NoDup_cons in Hnd as [_ Hnd].
  by apply NoDup_app in Hnd as [Hnd _].
Qed.

Lemma Repr_NoDup_keys s lm : Repr s lm → NoDup (rkey <$> lm.*2).
Proof.
  intros HR. rewrite <- list_fmap_compose.
  apply NoDup_fmap_2_strong.
  - intros [a1 d1] [a2 d2] H1 H2 E. simpl in E.
    assert (cache s !! rkey d1 = Some a1) as E1
      by (apply (Repr_lookup _ _ _ _ HR); eauto).
    assert (cache s !! rkey d1 = Some a2) as E2
      by (apply (Repr_lookup _ _ _ _ HR); eauto).
    assert (a1 = a2) as <- by congruence.
    pose proof (Repr_dat _ _ _ _ HR H1). pose proof (Repr_dat _ _ _ _ HR H2).
    congruence.
  - eapply NoDup_fmap_1. eapply Repr_NoDup_fst. done.
Qed.

(** Overwriting the value and expiry of a ledger node. *)
Lemma Repr_update s lm1 a d lm2 st' d' :
  Repr s (lm1 ++ (a, d) :: lm2) →
  (∀ z, nxt st' z = nxt (store s) z) →
  (∀ z, prv st' z = prv (store s) z) →
  (∀ z, dat st' z = if decide (z = a) then Some d' else dat (store s) z) →
  rkey d' = rkey d →
  Repr (with_store st' s) (lm1 ++ (a, d') :: lm2).
Proof.
  intros HR Hn Hp Hd Hk. pose proof HR as [[Hled Hidx Hcap Hsz] HF].
  pose proof (Repr_NoDup_fst _ _ HR) as Hnd.
  rewrite fmap_app, fmap_cons in *. simpl in *.
  apply NoDup_app in Hnd as (_ & Hdisj & [Ha _]%NoDup_cons).
  split.
  - rewrite fmap_app, fmap_cons. split; simpl; [| | done | done].
    + eapply Ledger_ext; [done|]. intros z _. by rewrite Hn, Hp.
    + intros k' a'. rewrite Hidx, Hd. case_decide as E; [|done]. subst a'.
      rewrite (Repr_dat _ _ a d HR) by (apply elem_of_app; right; left).
      simpl. by rewrite Hk.
  - apply Forall_app in HF as [HF1 [_ HF2]%Forall_cons].
    rewrite Forall_forall in HF1, HF2.
    apply Forall_app. split; [|apply Forall_cons; split].
    + apply Forall_forall. intros [a' d''] Hin. simpl. rewrite Hd.
      case_decide as E; [|by apply (HF1 _ Hin)]. subst a'. exfalso.
      apply (Hdisj a); [|left]. apply list_elem_of_fmap. by exists (a, d'').
    + simpl. rewrite Hd. by case_decide.
    + apply Forall_forall. intros [a' d''] Hin. simpl. rewrite Hd.
      case_decide as E; [|by apply (HF2 _ Hin)]. subst a'. exfalso.
      apply Ha. apply list_elem_of_fmap. by exists (a, d'').
Qed.

(** ** get *)

Lemma dict_del_Some k a s :
  cache s !! k = Some a →
  dict_del k s = (Return (), with_cache (delete k (cache s)) s).
Proof. unfold dict_del. by intros ->. Qed.

Lemma dict_get_Some k a s : cache s !! k = Some a → dict_get k s = (Return a, s).
Proof. unfold dict_get. by intros ->. Qed.

Lemma get_miss_run now k s :
  cache s !! k = None → get None_value float_ge now k s = (Return None_value, s).
Proof. intros Hk. unfold get. step. simpl. by rewrite Hk. Qed.

Lemma get_expired_run now s lm1 a d lm2 :
  Repr s (lm1 ++ (a, d) :: lm2) →
  float_ge now (rexpiry d) = true →
  ∃ st', get None_value float_ge now (rkey d) s =
           (Return None_value, with_cache (delete (rkey d) (cache s)) (with_store st' s)) ∧
    (∀ z, dat st' z = dat (store s) z) ∧
    Repr (with_cache (delete (rkey d) (cache s)) (with_store st' s)) (lm1 ++ lm2).
Proof.
  intros HR He.
  destruct (Repr_remove _ _ _ _ _ HR) as (st' & Hrun & Hd & Hka & HR').
  assert (dat (store s) a = Some d) as (n & Hn & ->)%dat_Some.
  { apply (Repr_dat _ _ a _ HR). apply elem_of_app. right. left. }
  exists st'. split_and!; [|done|done].
  unfold get. step. simpl. rewrite Hka. step.
  replace (_is_expired float_ge now n) with true by (symmetry; exact He).
  eapply bind_step; [exact Hrun|]. cbv beta.
  eapply bind_step; [by apply (dict_del_Some _ a)|]. reflexivity.
Qed.

Lemma get_hit_run now s lm1 a d lm2 :
  Repr s (lm1 ++ (a, d) :: lm2) →
  float_ge now (rexpiry d) = false →
  ∃ st', get None_value float_ge now (rkey d) s = (Return (rvalue d), with_store st' s) ∧
    (∀ z, dat st' z = dat (store s) z) ∧
    Repr (with_store st' s) ((a, d) :: lm1 ++ lm2).
Proof.
  intros HR He.
  destruct (Repr_move _ _ _ _ _ HR) as (st' & Hrun & Hd & HR').
  destruct (Repr_remove _ _ _ _ _ HR) as (_ & _ & _ & Hka & _).
  assert (dat (store s) a = Some d) as Hda.
  { apply (Repr_dat _ _ a _ HR). apply elem_of_app. right. left. }
  pose proof Hda as (n & Hn & ->)%dat_Some.
  assert (dat st' a = Some (key n, value n, expire_time n)) as (n' & Hn' & E)%dat_Some
    by (by rewrite Hd).
  exists st'. split_and!; [|done|done].
  unfold get. step. simpl. rewrite Hka. step.
  replace (_is_expired float_ge now n) with false by (symmetry; exact He).
  eapply bind_step; [exact Hrun|]. cbv beta.
  step. unfold rvalue. simpl. injection E as _ -> _. reflexivity.
Qed.

(** ** The sweep *)

Lemma scan_expired_run clock (items : list (K * addr)) (acc : list K) s :
  (∀ k a, (k, a) ∈ items → is_Some (store s !! a)) →
  ∃ ks, scan_expired float_ge clock items acc s = (Return (acc ++ ks), s) ∧
    (NoDup items.*1 → NoDup ks) ∧
    (∀ k, k ∈ ks ↔
          ∃ a d, (k, a) ∈ items ∧ dat (store s) a = Some d ∧
                 float_ge (clock k) (rexpiry d) = true).
Proof.
  revert acc. induction items as [|[k a] items IH]; intros acc Hst.
  - exists []. rewrite app_nil_r. split_and!; [done | by constructor |].
    intros k. split; [by intros ?%elem_of_nil|]. by intros (? & ? & ?%elem_of_nil & _).
  - destruct (Hst k a) as [n Hn]; [left|].
    assert (dat (store s) a = Some (key n, value n, expire_time n)) as Hda
      by (unfold dat; by rewrite Hn).
    simpl. destruct (_is_expired float_ge (clock k) n) eqn:E.
    + destruct (IH (acc ++ [k])) as (ks & Hrun & Hnd & Hks).
      { intros k' a' Hin. apply (Hst k' a'). by right. }
      exists (k :: ks). split_and!.
      * step. rewrite E, Hrun. by rewrite <- app_assoc.
      * intros [Hk Hnd']%NoDup_cons. apply NoDup_cons. split; [|by apply Hnd].
        intros (a' & d' & Hin & _)%Hks. apply Hk.
        apply list_elem_of_fmap. by exists (k, a').
      * intros k'. rewrite elem_of_cons, Hks. split.
        -- intros [->|(a' & d' & Hin & Hd')].
           ++ exists a, (key n, value n, expire_time n). split_and!; [left | done |].
              exact E.
           ++ exists a', d'. split; [by right | done].
        -- intros (a' & d' & [[= -> ->]|Hin]%elem_of_cons & Hd'); [by left|].
           right. eauto.
    + destruct (IH acc) as (ks & Hrun & Hnd & Hks).
      { intros k' a' Hin. apply (Hst k' a'). by right. }
      exists ks. split_and!.
      * step. by rewrite E, Hrun.
      * intros [_ Hnd']%NoDup_cons. by apply Hnd.
      * intros k'. rewrite Hks. split.
        -- intros (a' & d' & Hin & Hd'). exists a', d'. split; [by right | done].
        -- intros (a' & d' & [[= -> ->]|Hin]%elem_of_cons & Hd' & He); [|eauto].
           rewrite Hda in Hd'. injection Hd' as <-.
           unfold _is_expired in E. unfold rexpiry in He. simpl in He. congruence.
Qed.

Lemma filter_ext_in {A} (P1 P2 : A → Prop)
    `{!∀ y, Decision (P1 y), !∀ y, Decision (P2 y)} (ys : list A) :
  (∀ y, y ∈ ys → P1 y ↔ P2 y) → filter P1 ys = filter P2 ys.
Proof.
  induction ys as [|y ys IH]; intros Hext; [done|].
  rewrite !filter_cons.
  rewrite IH by (intros y' Hy'; apply Hext; by right).
  apply decide_ext, Hext. left.
Qed.

Lemma filter_all {A} (P : A → Prop) `{!∀ y, Decision (P y)} (ys : list A) :
  (∀ y, y ∈ ys → P y) → filter P ys = ys.
Proof.
  induction ys as [|y ys IH]; intros Hall; [done|].
  rewrite filter_cons_True by (apply Hall; left).
  f_equal. apply IH. intros y' Hy'. apply Hall. by right.
Qed.

(** The second loop of the sweep: unlinking and deleting the keys [ks]. *)
Lemma sweep_loop_run (ks : list K) s lm :
  Repr s lm →
  NoDup ks →
  (∀ k, k ∈ ks → is_Some (cache s !! k)) →
  ∃ c' st',
    for_each (λ k, node ← dict_get k; _remove_node node ;; dict_del k) ks s =
      (Return (), with_cache c' (with_store st' s)) ∧
    (∀ z, dat st' z = dat (store s) z) ∧
    Repr (with_cache c' (with_store st' s)) (filter (λ ad, rkey ad.2 ∉ ks) lm).
Proof.
  revert s lm. induction ks as [|k ks IH]; intros s lm HR Hnd Hin.
  - exists (cache s), (store s).
    replace (with_cache (cache s) (with_store (store s) s)) with s by (by destruct s).
    split_and!; [done | done |].
    rewrite filter_all; [done|]. intros ? _. apply not_elem_of_nil.
  - apply NoDup_cons in Hnd as [Hk Hnd].
    destruct (Hin k) as [a Ha]; [left|].
    destruct (Repr_split _ _ _ _ HR Ha) as (lm1 & d & lm2 & -> & Hdk).
    destruct (Repr_remove _ _ _ _ _ HR) as (st1 & Hrun1 & Hd1 & _ & HR1).
    rewrite Hdk in HR1.
    destruct (IH _ _ HR1 Hnd) as (c2 & st2 & Hrun2 & Hd2 & HR2).
    { intros k' Hk'. simpl. rewrite lookup_delete_ne by (intros ->; done).
      apply Hin. by right. }
    exists c2, st2. split_and!.
    + simpl. eapply bind_step.
      { eapply bind_step; [by apply dict_get_Some|]. cbv beta.
        eapply bind_step; [exact Hrun1|]. cbv beta.
        by apply (dict_del_Some _ a). }
      exact Hrun2.
    + intros z. by rewrite Hd2.
    + simpl in HR2.
      replace (filter (λ ad, rkey ad.2 ∉ k :: ks) (lm1 ++ (a, d) :: lm2))
        with (filter (λ ad, rkey ad.2 ∉ ks) (lm1 ++ lm2)); [exact HR2|].
      pose proof (Repr_NoDup_keys _ _ HR) as Hkeys.
      rewrite !fmap_app, !fmap_cons in Hkeys. simpl in Hkeys.
      apply NoDup_app in Hkeys as (_ & Hdisj & [Hd' _]%NoDup_cons).
      rewrite !filter_app, filter_cons_False
        by (simpl; rewrite Hdk; intros Hn; apply Hn; left).
      f_equal; apply filter_ext_in; intros [a' d'] Hin'; simpl;
        rewrite not_elem_of_cons; split; try tauto; intros Hks; (split; [|done]);
        intros E.
      * apply (Hdisj (rkey d)); [|left]. rewrite Hdk, <- E.
        apply list_elem_of_fmap. exists d'. split; [done|].
        apply list_elem_of_fmap. by exists (a', d').
      * apply Hd'. rewrite Hdk, <- E.
        apply list_elem_of_fmap. exists d'. split; [done|].
        apply list_elem_of_fmap. by exists (a', d').
Qed.

Lemma _cleanup_expired_run clock s lm :
  Repr s lm →
  ∃ c' st',
    _cleanup_expired float_ge clock s = (Return (), with_cache c' (with_store st' s)) ∧
    (∀ z, dat st' z = dat (store s) z) ∧
    Repr (with_cache c' (with_store st' s)) (filter (λ ad, live float_ge clock ad.2) lm).
Proof.
  intros HR.
  destruct (scan_expired_run clock (map_to_list (cache s)) [] s) as (ks & Hscan & Hnd & Hks).
  { intros k a Hin%elem_of_map_to_list.
    apply (Repr_lookup _ _ _ _ HR) in Hin as (d & Hin & _).
    apply dat_is_Some. rewrite (Repr_dat _ _ _ _ HR Hin). done. }
  specialize (Hnd (NoDup_fst_map_to_list _)).
  destruct (sweep_loop_run ks s lm HR Hnd) as (c' & st' & Hrun & Hd & HR').
  { intros k (a & _ & Hin%elem_of_map_to_list & _)%Hks. eauto. }
  exists c', st'. split_and!; [|done|].
  - unfold _cleanup_expired. step. eapply bind_step; [exact Hscan|]. exact Hrun.
  - replace (filter (λ ad, live float_ge clock ad.2) lm)
      with (filter (λ ad, rkey ad.2 ∉ ks) lm); [done|].
    apply filter_ext_in. intros [a d] Hin. simpl. rewrite Hks. unfold live. split.
    + intros Hn. destruct (float_ge (clock (rkey d)) (rexpiry d)) eqn:E; [|done].
      exfalso. apply Hn. exists a, d. split_and!; [| |done].
      * apply elem_of_map_to_list, (Repr_lookup _ _ _ _ HR). eauto.
      * by apply (Repr_dat _ _ _ _ HR).
    + intros Hlt (a' & d' & Hin'%elem_of_map_to_list & Hd' & He).
      assert (cache s !! rkey d = Some a) as Ha
        by (apply (Repr_lookup _ _ _ _ HR); eauto).
      assert (a' = a) as -> by congruence.
      rewrite (Repr_dat _ _ _ _ HR Hin) in Hd'. injection Hd' as <-. congruence.
Qed.

(** ** put *)

(** The eviction branch, on a ledger whose last node is [a]. *)
Lemma evict_lru_run s lm a d :
  Repr s (lm ++ [(a, d)]) →
  ∃ st',
    _remove_tail s = (Return a, with_store st' s) ∧
    a ≠ head s ∧ a ≠ tail s ∧
    cache (with_store st' s) !! rkey d = Some a ∧
    (lru_node ← _remove_tail; ln ← load lru_node; dict_del (key ln)) s =
      (Return (), with_cache (delete (rkey d) (cache s)) (with_store st' s)) ∧
    (∀ z, dat st' z = dat (store s) z) ∧
    Repr (with_cache (delete (rkey d) (cache s)) (with_store st' s)) lm.
Proof.
  intros HR.
  destruct (Repr_remove _ _ _ _ _ HR) as (st' & Hrun & Hd & Hka & HR').
  rewrite app_nil_r in HR'.
  pose proof HR as [[[Hnd Hl] _ _ _] _].
  rewrite fmap_app in Hnd, Hl. simpl in Hnd, Hl.
  apply (links_app _ _ _ _ a) in Hl as [_ (_ & Hta & _)];
    [|by rewrite app_comm_cons, last_snoc].
  apply prv_Some in Hta as (tn & Htn & Htp).
  assert (dat st' a = Some d) as (n' & Hn' & ->)%dat_Some.
  { rewrite Hd. apply (Repr_dat _ _ a d HR). apply elem_of_app. right. left. }
  assert (_remove_tail s = (Return a, with_store st' s)) as Htail.
  { unfold _remove_tail. do 3 step. eapply bind_step; [exact Hrun|]. reflexivity. }
  exists st'. split_and!; try done.
  - intros ->. apply NoDup_cons in Hnd as [Hh _]. apply Hh.
    apply elem_of_app. left. apply elem_of_app. right. left.
  - intros ->. apply NoDup_cons in Hnd as [_ Hnd].
    apply NoDup_app in Hnd as (_ & Hdisj & _). apply (Hdisj (tail s)); [|left].
    apply elem_of_app. right. left.
  - eapply bind_step; [exact Htail|]. cbv beta. step.
    etrans; [apply (dict_del_Some _ a); exact Hka | reflexivity].
Qed.

Lemma make_room_sublist {A} (P : A → Prop) `{!∀ y, Decision (P y)} cap (ys : list A) y :
  y ∈ make_room P cap ys → y ∈ ys.
Proof.
  unfold make_room. destruct (_ >=? _); [|done].
  destruct (_ >=? _).
  - intros Hy. assert (y ∈ filter P ys) as Hy'; [|by apply list_elem_of_filter in Hy' as [_ ?]].
    destruct (filter P ys) as [|y0 ys'] using rev_ind; [done|].
    rewrite removelast_last in Hy. apply elem_of_app. by left.
  - by intros [_ ?]%list_elem_of_filter.
Qed.

Lemma make_room_length {A} (P : A → Prop) `{!∀ y, Decision (P y)} cap (ys : list A) :
  0 < cap → Z.of_nat (length ys) ≤ cap →
  Z.of_nat (length (make_room P cap ys)) < cap.
Proof.
  intros Hcap Hlen. unfold make_room.
  destruct (Z.geb_spec (Z.of_nat (length ys)) cap); [|lia].
  pose proof (length_filter P ys) as Hf.
  destruct (Z.geb_spec (Z.of_nat (length (filter P ys))) cap); [|lia].
  destruct (filter P ys) as [|y0 ys' _] using rev_ind; [simpl in *; lia|].
  rewrite removelast_last. rewrite length_app in *. simpl in *. lia.
Qed.

Lemma make_room_run clock s lm :
  Repr s lm →
  ∃ c' st',
    (n ← len_cache; cap ← self capacity;
     if n >=? cap then
       _cleanup_expired float_ge clock ;;
       n ← len_cache; cap ← self capacity;
       if n >=? cap then
         lru_node ← _remove_tail;
         ln ← load lru_node;
         dict_del (key ln)
       else mret ()
     else mret ()) s = (Return (), with_cache c' (with_store st' s)) ∧
    (∀ z, dat st' z = dat (store s) z) ∧
    Repr (with_cache c' (with_store st' s))
      (make_room (λ ad, live float_ge clock ad.2) (capacity s) lm).
Proof.
  intros HR.
  assert (len_cache s = (Return (Z.of_nat (length lm)), s)) as Hlen.
  { unfold len_cache. pose proof (Repr_size _ _ HR) as E. unfold size in E. by rewrite E. }
  unfold make_room.
  destruct (Z.of_nat (length lm) >=? capacity s) eqn:E1.
  - destruct (_cleanup_expired_run clock s lm HR) as (c1 & st1 & Hrun1 & Hd1 & HR1).
    set (s1 := with_cache c1 (with_store st1 s)) in *.
    set (sw := filter (λ ad, live float_ge clock ad.2) lm) in *.
    assert (len_cache s1 = (Return (Z.of_nat (length sw)), s1)) as Hlen1.
    { unfold len_cache. pose proof (Repr_size _ _ HR1) as E. unfold size in E. by rewrite E. }
    destruct (Z.of_nat (length sw) >=? capacity s) eqn:E2.
    + destruct sw as [|[a d] sw' _] using rev_ind.
      { exfalso. pose proof (inv_capacity _ _ (proj1 HR)). simpl in E2.
        apply Z.geb_le in E2. lia. }
      destruct (evict_lru_run _ _ _ _ HR1) as (st2 & _ & _ & _ & _ & Hrun2 & Hd2 & HR2).
      rewrite removelast_last.
      exists (delete (rkey d) c1), st2. split_and!; [|intros z; by rewrite Hd2|exact HR2].
      eapply bind_step; [exact Hlen|]. cbv beta. step. rewrite E1.
      eapply bind_step; [exact Hrun1|]. cbv beta.
      eapply bind_step; [exact Hlen1|]. cbv beta. step. simpl. rewrite E2.
      exact Hrun2.
    + exists c1, st1. split_and!; [|done|done].
      eapply bind_step; [exact Hlen|]. cbv beta. step. rewrite E1.
      eapply bind_step; [exact Hrun1|]. cbv beta.
      eapply bind_step; [exact Hlen1|]. cbv beta. step. simpl. rewrite E2.
      reflexivity.
  - exists (cache s), (store s).
    replace (with_cache (cache s) (with_store (store s) s)) with s by (by destruct s).
    split_and!; [|done|done].
    eapply bind_step; [exact Hlen|]. cbv beta. step. by rewrite E1.
Qed.

Lemma put_invalid_run now clock k v ttl s :
  ttl ≤ 0 →
  put float_ge float_add now clock k v ttl s = (Raise (ValueError "TTL must be positive"), s).
Proof. intros Httl. unfold put. by destruct (Z.leb_spec ttl 0); [|lia]. Qed.

Lemma put_overflow_run now clock k v ttl s :
  0 < ttl →
  float_add now ttl = None →
  put float_ge float_add now clock k v ttl s = (Raise OverflowError, s).
Proof.
  intros Httl Hadd. unfold put. destruct (Z.leb_spec ttl 0); [lia|]. by rewrite Hadd.
Qed.

Lemma put_existing_run now clock v ttl e s lm1 a d lm2 :
  Repr s (lm1 ++ (a, d) :: lm2) →
  0 < ttl →
  float_add now ttl = Some e →
  ∃ st', put float_ge float_add now clock (rkey d) v ttl s = (Return (), with_store st' s) ∧
    (∀ z, z ≠ a → dat st' z = dat (store s) z) ∧
    Repr (with_store st' s) ((a, (rkey d, v, e)) :: lm1 ++ lm2).
Proof.
  intros HR Httl Hadd.
  destruct (Repr_remove _ _ _ _ _ HR) as (_ & _ & _ & Hka & _).
  assert (dat (store s) a = Some d) as Hda.
  { apply (Repr_dat _ _ a _ HR). apply elem_of_app. right. left. }
  pose proof Hda as (n & Hn & ->)%dat_Some.
  set (n' := set_expire_time e (set_value v n)).
  set (st1 := <[a := n']> (<[a := set_value v n]> (store s))).
  assert (Repr (with_store st1 s) (lm1 ++ (a, (key n, v, e)) :: lm2)) as HR1.
  { eapply Repr_update; [exact HR | | | | done].
    - intros z. unfold st1. rewrite !nxt_insert. case_decide; [|done].
      subst z. unfold nxt. by rewrite Hn.
    - intros z. unfold st1. rewrite !prv_insert. case_decide; [|done].
      subst z. unfold prv. by rewrite Hn.
    - intros z. unfold st1. rewrite !dat_insert. by case_decide. }
  destruct (Repr_move _ _ _ _ _ HR1) as (st2 & Hrun2 & Hd2 & HR2).
  exists st2. split_and!; [| |exact HR2].
  - unfold put. destruct (Z.leb_spec ttl 0); [lia|]. rewrite Hadd. step. simpl. rewrite Hka.
    do 2 step. exact Hrun2.
  - intros z Hz. rewrite Hd2. simpl. unfold st1. rewrite !dat_insert. by case_decide.
Qed.

Lemma put_new_run now clock k v ttl e s lm :
  Repr s lm →
  cache s !! k = None →
  0 < ttl →
  float_add now ttl = Some e →
  ∃ a c' st', put float_ge float_add now clock k v ttl s = (Return (), with_cache c' (with_store st' s)) ∧
    store s !! a = None ∧
    (∀ z, z ≠ a → dat st' z = dat (store s) z) ∧
    Repr (with_cache c' (with_store st' s))
      ((a, (k, v, e)) :: make_room (λ ad, live float_ge clock ad.2) (capacity s) lm).
Proof.
  intros HR Hk Httl Hadd.
  set (a := fresh (dom (store s))).
  assert (store s !! a = None) as Ha by (apply not_elem_of_dom, is_fresh).
  set (n := mkNode k v e None None).
  set (s1 := with_store (<[a := n]> (store s)) s).
  assert (∀ z, z ∈ head s :: lm.*1 ++ [tail s] → z ≠ a) as Hfresh.
  { intros z Hz ->. destruct (Ledger_in_store _ _ _ _ a (inv_ledger _ _ (proj1 HR)) Hz).
    congruence. }
  assert (Repr s1 lm) as HR1.
  { apply Repr_store_ext; [done|]. intros z Hz%Hfresh.
    rewrite nxt_insert, prv_insert, dat_insert. by case_decide. }
  destruct (make_room_run clock s1 lm HR1) as (c2 & st2 & Hrun2 & Hd2 & HR2).
  simpl in Hd2, HR2.
  set (lm2 := make_room (λ ad, live float_ge clock ad.2) (capacity s) lm) in *.
  set (s2 := with_cache c2 (with_store st2 s1)) in *.
  destruct (Repr_insert s2 lm2 k a (k, v, e)) as (st3 & Hrun3 & Hd3 & HR3);
    [done | | | | done | |].
  - apply (Repr_lookup_None _ _ _ HR2). intros Hin.
    apply (Repr_lookup_None _ _ _ HR) in Hk. apply Hk.
    apply list_elem_of_fmap in Hin as (d & -> & Hin).
    apply list_elem_of_fmap in Hin as ([a' d'] & -> & Hin).
    apply make_room_sublist in Hin.
    apply list_elem_of_fmap. exists d'. split; [done|].
    apply list_elem_of_fmap. by exists (a', d').
  - intros Hin. apply (Hfresh a); [|done]. simpl in Hin.
    apply elem_of_cons in Hin as [?|Hin]; apply elem_of_cons; [by left|]. right.
    apply elem_of_app in Hin as [Hin|?]; apply elem_of_app; [left|by right].
    apply list_elem_of_fmap in Hin as ([a' d'] & -> & Hin).
    apply make_room_sublist in Hin. apply list_elem_of_fmap. by exists (a', d').
  - simpl. rewrite Hd2, dat_insert. by case_decide.
  - simpl. pose proof (inv_capacity _ _ (proj1 HR)) as Hcap.
    pose proof (inv_size _ _ (proj1 HR)) as Hsz. rewrite length_fmap in Hsz.
    pose proof (make_room_length (λ ad, live float_ge clock ad.2) (capacity s) lm Hcap Hsz).
    fold lm2 in H0. lia.
  - exists a, (<[k := a]> c2), st3. split_and!; [|done| |exact HR3].
    + unfold put. destruct (Z.leb_spec ttl 0); [lia|]. rewrite Hadd. step. simpl. rewrite Hk.
      eapply bind_step; [reflexivity|]. cbv beta.
      eapply bind_step; [exact Hrun2|]. cbv beta.
      eapply bind_step; [reflexivity|]. cbv beta.
      exact Hrun3.
    + intros z Hz. rewrite Hd3. simpl. rewrite Hd2, dat_insert. by case_decide.
Qed.

(** ** clear and __init__ *)

Lemma clear_run s lm :
  Repr s lm →
  ∃ st', clear s = (Return (), with_cache ∅ (with_store st' s)) ∧
    (∀ z, dat st' z = dat (store s) z) ∧
    Repr (with_cache ∅ (with_store st' s)) [].
Proof.
  intros [[Hled Hidx Hcap Hsz] _].
  destruct (Ledger_in_store _ _ _ _ (head s) Hled) as [nh Hh]; [left|].
  destruct (Ledger_in_store _ _ _ _ (tail s) Hled) as [nt Ht].
  { right. apply elem_of_app. right. left. }
  assert (head s ≠ tail s) as Hne.
  { destruct Hled as [[Hnd _]%NoDup_cons _]. intros E. apply Hnd. rewrite E.
    apply elem_of_app. right. left. }
  exists (<[tail s := set_prev (Some (head s)) nt]>
            (<[head s := set_next (Some (tail s)) nh]> (store s))).
  split_and!.
  - unfold clear. eapply bind_step; [reflexivity|]. cbv beta. do 5 step.
    etrans; [apply modify_Some; lk | reflexivity].
  - intros z. rewrite !dat_insert. unfold dat.
    repeat case_decide; subst; rewrite ?Hh, ?Ht; done.
  - split; [|by constructor]. split; simpl; [| |done|lia].
    + split.
      * apply NoDup_cons. split; [by intros ?%list_elem_of_singleton|].
        apply NoDup_singleton.
      * simpl. rewrite !nxt_insert, !prv_insert. simpl.
        repeat case_decide; try done; congruence.
    + intros k a. rewrite lookup_empty. split; [done|]. by intros [?%elem_of_nil _].
Qed.

Lemma clear_empty_run s :
  nxt (store s) (head s) = Some (tail s) →
  prv (store s) (tail s) = Some (head s) →
  cache s = ∅ →
  clear s = (Return (), s).
Proof.
  intros (nh & Hh & Hn)%nxt_Some (nt & Ht & Hp)%prv_Some Hc.
  assert (set_next (Some (tail s)) nh = nh) as E1 by (destruct nh; simpl in *; by subst).
  assert (set_prev (Some (head s)) nt = nt) as E2 by (destruct nt; simpl in *; by subst).
  unfold clear. eapply bind_step; [reflexivity|]. cbv beta. do 2 step.
  eapply bind_step; [by apply modify_Some|]. cbv beta. simpl.
  rewrite E1, insert_id by done. do 2 step.
  etrans; [apply modify_Some; simpl; exact Ht|]. simpl.
  rewrite E2, insert_id by done. destruct s. simpl in *. by subst.
Qed.

Lemma __init___run cap s :
  __init__ None_key None_value time_zero cap = inr s →
  0 < cap ∧ capacity s = cap ∧ cache s = ∅ ∧ Repr s [].
Proof.
  unfold __init__. destruct (Z.leb_spec cap 0); [done|]. intros [= <-].
  split_and!; try done. split; [|by constructor].
  split; simpl; [| |done|lia].
  - split.
    + apply NoDup_cons. split; [by intros ?%list_elem_of_singleton|].
      apply NoDup_singleton.
    + simpl. split_and!; done.
  - intros k a. rewrite lookup_empty. split; [done|]. by intros [?%elem_of_nil _].
Qed.

(** ** Reading the ledger back from a state *)

Lemma walk_forward st a l t fuel :
  links st a (l ++ [t]) → t ∉ l → (length l < fuel)%nat →
  walk (nxt st) t fuel a = Some l.
Proof.
  revert a fuel. induction l as [|b l IH]; intros a fuel Hl Ht Hfuel.
  - destruct fuel as [|fuel]; [lia|]. destruct Hl as (Hat & _). simpl.
    rewrite Hat. by case_decide.
  - destruct fuel as [|fuel]; [simpl in Hfuel; lia|].
    destruct Hl as (Hab & _ & Hl). simpl. rewrite Hab.
    apply not_elem_of_cons in Ht as [Htb Ht].
    case_decide; [congruence|].
    rewrite (IH b fuel); [done | done | done | simpl in Hfuel; lia].
Qed.

Lemma walk_backward st h l t fuel :
  links st h (l ++ [t]) → h ∉ l → (length l < fuel)%nat →
  walk (prv st) h fuel t = Some (reverse l).
Proof.
  revert t fuel. induction l as [|b l IH] using rev_ind; intros t fuel Hl Hh Hfuel.
  - destruct fuel as [|fuel]; [lia|]. destruct Hl as (_ & Hth & _). simpl.
    rewrite Hth. by case_decide.
  - destruct fuel as [|fuel]; [lia|].
    apply (links_app _ _ _ _ b) in Hl as [Hl (_ & Htb & _)];
      [|by rewrite app_comm_cons, last_snoc].
    simpl. rewrite Htb.
    apply not_elem_of_app in Hh as [Hh Hhb%not_elem_of_cons].
    case_decide; [subst; by destruct Hhb|].
    rewrite reverse_snoc, (IH b fuel); [done | done | done |].
    rewrite length_app in Hfuel. simpl in Hfuel. lia.
Qed.

Lemma NoDup_length_store st (ys : list addr) :
  NoDup ys → (∀ y, y ∈ ys → is_Some (st !! y)) → (length ys ≤ base.size st)%nat.
Proof.
  intros Hnd Hin.
  rewrite <- length_map_to_list, <- (length_fmap fst).
  apply submseteq_length, NoDup_submseteq; [done|].
  intros y [n Hn]%Hin. apply list_elem_of_fmap. exists (y, n).
  split; [done|]. by apply elem_of_map_to_list.
Qed.

Lemma Inv_forward s l : Inv s l → forward s = Some l ∧ backward s = Some (reverse l).
Proof.
  intros [Hled _ _ _]. pose proof Hled as [Hnd Hl].
  pose proof (NoDup_length_store (store s) _ Hnd
                (λ z, Ledger_in_store _ _ _ _ z Hled)) as Hlen.
  simpl in Hlen. rewrite length_app in Hlen. simpl in Hlen.
  apply NoDup_cons in Hnd as [Hh Hnd].
  apply NoDup_app in Hnd as (_ & Hdisj & _).
  split.
  - apply walk_forward; [done | | lia].
    intros Hin. apply (Hdisj _ Hin). left.
  - apply walk_backward; [done | | lia].
    intros Hin. apply Hh, elem_of_app. by left.
Qed.

Lemma Repr_mapM s lm : Repr s lm → mapM (dat (store s)) lm.*1 = Some lm.*2.
Proof.
  intros [_ HF]. apply mapM_Some. apply Forall2_fmap.
  induction HF; constructor; done.
Qed.

Lemma Repr_items s lm : Repr s lm → items s = Some lm.*2.
Proof.
  intros HR. unfold items.
  destruct (Inv_forward _ _ (proj1 HR)) as [-> _]. simpl. by apply Repr_mapM.
Qed.

Lemma Repr_index s lm k : Repr s lm → is_Some (cache s !! k) ↔ k ∈ rkey <$> lm.*2.
Proof.
  intros HR. rewrite <- not_eq_None_Some, (Repr_lookup_None _ _ _ HR).
  destruct (decide (k ∈ rkey <$> lm.*2)); tauto.
Qed.

Lemma Repr_well_formed s lm : Repr s lm → well_formed s.
Proof.
  intros HR. pose proof HR as [HI _].
  destruct (Inv_forward _ _ HI) as [Hf Hb].
  exists lm.*1, lm.*2. split_and!; try done.
  - by apply Repr_mapM.
  - by destruct HI as [[? _] _ _ _].
  - by eapply Repr_NoDup_keys.
  - by destruct HI.
  - intros k. by apply Repr_index.
  - by apply Inv_size.
Qed.

(** ** Every operation keeps the representation *)

Lemma exec_Get now k s : exec None_value float_ge float_add (Get now k) s = (get None_value float_ge now k s).2.
Proof. reflexivity. Qed.

Lemma exec_Put now clock k v ttl s :
  exec None_value float_ge float_add (Put now clock k v ttl) s = (put float_ge float_add now clock k v ttl s).2.
Proof.
  unfold exec, run. rewrite run_bind. by destruct (put float_ge float_add now clock k v ttl s) as [[|] ?].
Qed.

Lemma exec_Clear s : exec None_value float_ge float_add Clear s = (clear s).2.
Proof. unfold exec, run. rewrite run_bind. by destruct (clear s) as [[|] ?]. Qed.

Lemma exec_Repr o s lm :
  Repr s lm →
  ∃ lm', Repr (exec None_value float_ge float_add o s) lm' ∧ capacity (exec None_value float_ge float_add o s) = capacity s.
Proof.
  intros HR. destruct o as [now k|now clock k v ttl|].
  - rewrite exec_Get. destruct (cache s !! k) as [a|] eqn:Hk.
    + destruct (Repr_split _ _ _ _ HR Hk) as (lm1 & d & lm2 & -> & <-).
      destruct (float_ge now (rexpiry d)) eqn:Hge.
      * destruct (get_expired_run now _ _ _ _ _ HR Hge) as (st' & -> & _ & HR'); eauto.
      * destruct (get_hit_run now _ _ _ _ _ HR Hge) as (st' & -> & _ & HR'); eauto.
    + rewrite get_miss_run by done. eauto.
  - rewrite exec_Put. destruct (decide (ttl ≤ 0)).
    { rewrite put_invalid_run by done. eauto. }
    destruct (float_add now ttl) as [e|] eqn:Hadd.
    2: { rewrite put_overflow_run by (done || lia). eauto. }
    destruct (cache s !! k) as [a|] eqn:Hk.
    + destruct (Repr_split _ _ _ _ HR Hk) as (lm1 & d & lm2 & -> & <-).
      destruct (put_existing_run now clock v ttl e _ _ _ _ _ HR) as (st' & -> & _ & HR');
        [lia|done|eauto].
    + destruct (put_new_run now clock k v ttl e _ _ HR Hk)
        as (a & c' & st' & -> & _ & _ & HR'); [lia|done|eauto].
  - rewrite exec_Clear. destruct (clear_run _ _ HR) as (st' & -> & _ & HR'). eauto.
Qed.

Lemma reachable_Repr s : reachable None_key None_value time_zero float_ge float_add s → ∃ lm, Repr s lm.
Proof.
  induction 1 as [capacity s Hinit|o s _ [lm HR]].
  - exists []. by apply __init___run in Hinit as (_ & _ & _ & ?).
  - destruct (exec_Repr o _ _ HR) as (lm' & HR' & _). eauto.
Qed.

Lemma execs_capacity os s :
  reachable None_key None_value time_zero float_ge float_add s → capacity (execs None_value float_ge float_add os s) = capacity s.
Proof.
  revert s. induction os as [|o os IH]; intros s Hs; [done|].
  simpl. rewrite IH by (by constructor).
  apply reachable_Repr in Hs as [lm HR].
  by destruct (exec_Repr o _ _ HR) as (_ & _ & ?).
Qed.

Lemma reachable_items s m :
  reachable None_key None_value time_zero float_ge float_add s → items s = Some m → ∃ lm, Repr s lm ∧ lm.*2 = m.
Proof.
  intros [lm HR]%reachable_Repr Hm. exists lm. split; [done|].
  rewrite (Repr_items _ _ HR) in Hm. congruence.
Qed.

Lemma reachable_execs os s :
  reachable None_key None_value time_zero float_ge float_add s → reachable None_key None_value time_zero float_ge float_add (execs None_value float_ge float_add os s).
Proof.
  revert s. induction os as [|o os IH]; intros s Hs; [done|].
  simpl. apply IH. by constructor.
Qed.

Lemma reachable_size s :
  reachable None_key None_value time_zero float_ge float_add s → 0 < capacity s ∧ 0 ≤ size s ≤ capacity s.
Proof.
  intros [lm HR]%reachable_Repr. rewrite (Repr_size _ _ HR).
  destruct HR as [[_ _ Hcap Hsz] _]. rewrite length_fmap in Hsz. lia.
Qed.

Lemma reachable_split s m1 d m2 :
  reachable None_key None_value time_zero float_ge float_add s →
  items s = Some (m1 ++ d :: m2) →
  ∃ lm1 a lm2, Repr s (lm1 ++ (a, d) :: lm2) ∧ lm1.*2 = m1 ∧ lm2.*2 = m2.
Proof.
  intros Hs Hm. destruct (reachable_items _ _ Hs Hm) as (lm & HR & E).
  apply fmap_app_inv in E as (lm1 & lm' & -> & E & ->).
  symmetry in E. apply fmap_cons_inv in E as ([a d'] & lm2 & -> & -> & ->).
  exists lm1, a, lm2. done.
Qed.

Lemma key_split (m : list record) k :
  k ∈ rkey <$> m → ∃ m1 d m2, m = m1 ++ d :: m2 ∧ rkey d = k.
Proof.
  intros (d & -> & Hin)%list_elem_of_fmap.
  apply list_elem_of_split in Hin as (m1 & m2 & ->). eauto.
Qed.

Lemma make_room_spare {A} (P : A → Prop) `{!∀ y, Decision (P y)} cap (ys : list A) :
  Z.of_nat (length ys) < cap → make_room P cap ys = ys.
Proof.
  intros Hlen. unfold make_room.
  by destruct (Z.geb_spec (Z.of_nat (length ys)) cap); [lia|].
Qed.

Lemma filter_snd (P : record → Prop) `{!∀ d, Decision (P d)} lm :
  (filter (λ ad, P ad.2) lm).*2 = filter P lm.*2.
Proof.
  induction lm as [|[a d] lm IH]; [done|].
  rewrite fmap_cons, !filter_cons. cbn [snd].
  destruct (decide (P d)); [rewrite fmap_cons|]; by rewrite IH.
Qed.

Lemma removelast_snd lm : (removelast lm).*2 = removelast lm.*2.
Proof.
  destruct lm as [|ad lm _] using rev_ind; [done|].
  by rewrite fmap_snoc, !removelast_last.
Qed.

Lemma make_room_snd (P : record → Prop) `{!∀ d, Decision (P d)} cap lm :
  (make_room (λ ad, P ad.2) cap lm).*2 = make_room P cap lm.*2.
Proof.
  unfold make_room. cbv zeta. rewrite length_fmap.
  destruct (_ >=? _); [|done].
  rewrite <- (filter_snd P), length_fmap.
  destruct (_ >=? _); [|done]. apply removelast_snd.
Qed.

Lemma alloc_Repr n s lm : Repr s lm → Repr (alloc n s).2 lm.
Proof.
  intros HR. simpl. apply Repr_store_ext; [done|]. intros z Hz.
  assert (z ≠ fresh (dom (store s))) as Hne.
  { intros ->. destruct (Ledger_in_store _ _ _ _ _ (inv_ledger _ _ (proj1 HR)) Hz) as [? E].
    apply (is_fresh (dom (store s))), elem_of_dom. eauto. }
  rewrite nxt_insert, prv_insert, dat_insert. by case_decide.
Qed.

Lemma put_returns now clock k v ttl e s lm :
  Repr s lm → 0 < ttl → float_add now ttl = Some e →
  ∃ s', put float_ge float_add now clock k v ttl s = (Return (), s').
Proof.
  intros HR Httl Hadd. destruct (cache s !! k) as [a|] eqn:Hk.
  - destruct (Repr_split _ _ _ _ HR Hk) as (lm1 & d & lm2 & -> & <-).
    destruct (put_existing_run now clock v ttl e _ _ _ _ _ HR Httl Hadd) as (st' & -> & _). eauto.
  - destruct (put_new_run now clock k v ttl e _ _ HR Hk Httl Hadd) as (a & c' & st' & -> & _). eauto.
Qed.

(** Puts of distinct new keys while there is room pile up at the front. *)
Lemma puts_fresh_run (ps : list (@put_args K V time)) s lm :
  Repr s lm →
  NoDup (p_key <$> ps) →
  (∀ u, u ∈ ps → p_key u ∉ rkey <$> lm.*2) →
  Forall (λ u, 0 < p_ttl u) ps →
  Forall (stores float_add) ps →
  Z.of_nat (length lm + length ps) ≤ capacity s →
  ∃ lm', Repr (execs None_value float_ge float_add (Put_of <$> ps) s) lm' ∧
    lm'.*2 = reverse (record_of <$> ps) ++ lm.*2 ∧
    capacity (execs None_value float_ge float_add (Put_of <$> ps) s) = capacity s.
Proof.
  revert s lm. induction ps as [|u ps IH]; intros s lm HR Hnd Hnew Httl Hst Hlen.
  - exists lm. done.
  - apply NoDup_cons in Hnd as [Hp Hnd]. apply Forall_cons in Httl as [Hpt Httl].
    apply Forall_cons in Hst as [Hpe Hst].
    assert (cache s !! p_key u = None) as Hk.
    { apply (Repr_lookup_None _ _ _ HR). apply Hnew. left. }
    destruct (put_new_run (p_now u) (p_clock u) (p_key u) (p_value u) (p_ttl u) (p_expiry u)
                _ _ HR Hk Hpt Hpe)
      as (a & c' & st' & Hrun & _ & _ & HR').
    rewrite make_room_spare in HR' by (simpl in Hlen; lia).
    assert (exec None_value float_ge float_add (Put_of u) s = with_cache c' (with_store st' s)) as E0
      by (unfold Put_of; by rewrite exec_Put, Hrun).
    change (execs None_value float_ge float_add (Put_of <$> u :: ps) s)
      with (execs None_value float_ge float_add (Put_of <$> ps) (exec None_value float_ge float_add (Put_of u) s)).
    rewrite E0.
    destruct (IH _ _ HR' Hnd) as (lm' & HR'' & E & Hcap); [|done|done|simpl in *; lia|].
    + intros u' Hp'. rewrite fmap_cons, fmap_cons. simpl.
      apply not_elem_of_cons. split; [|apply Hnew; by right].
      unfold rkey. simpl. intros Heq. apply Hp. rewrite <- Heq.
      by apply list_elem_of_fmap_2.
    + exists lm'. split_and!; [done | | done].
      rewrite E, !fmap_cons, reverse_cons, <- app_assoc. done.
Qed.

Lemma rkey_record_of (ps : list (@put_args K V time)) :
  rkey <$> (record_of <$> ps) = p_key <$> ps.
Proof. by rewrite <- list_fmap_compose. Qed.

(** * The specification *)

(** C1. On a cache built by the constructor with capacity [cap] and driven
    by any sequence [os] of get, put and clear calls, whenever a further put
    call completes (by returning, or by rejecting its TTL), size(), the
    number of entries of the index, is at most [cap]. *)
Theorem put_within_capacity cap s0 os now clock k v ttl_ms r s' :
  __init__ None_key None_value time_zero cap = inr s0 →
  put float_ge float_add now clock k v ttl_ms (execs None_value float_ge float_add os s0) = (r, s') →
  size s' ≤ cap.
Proof.
  intros Hinit Hput.
  assert (reachable None_key None_value time_zero float_ge float_add s0) as Hs0 by (by econstructor).
  pose proof (reachable_execs (os ++ [Put now clock k v ttl_ms]) _ Hs0) as Hs'.
  pose proof (execs_capacity (os ++ [Put now clock k v ttl_ms]) _ Hs0) as Hcap.
  unfold execs in Hs', Hcap. rewrite foldl_snoc in Hs', Hcap.
  fold (execs None_value float_ge float_add os s0) in Hs', Hcap. rewrite exec_Put, Hput in Hs', Hcap.
  apply __init___run in Hinit as (_ & <- & _). rewrite <- Hcap.
  by apply reachable_size.
Qed.

(** C6. Both rejections are free of side effects: a put whose TTL is zero
    or negative raises the ValueError "TTL must be positive" and leaves the
    whole state (index, ledger, store, capacity) as it was, in any state;
    the constructor called with a zero or negative capacity raises the
    ValueError "Capacity must be positive" and yields no cache. *)
Theorem rejections_have_no_effect s now clock k v ttl_ms cap :
  ttl_ms ≤ 0 →
  cap ≤ 0 →
  put float_ge float_add now clock k v ttl_ms s = (Raise (ValueError "TTL must be positive"), s) ∧
  __init__ None_key None_value time_zero cap = inl (ValueError "Capacity must be positive").
Proof.
  intros Httl Hcap. split.
  - by apply put_invalid_run.
  - unfold __init__. by destruct (Z.leb_spec cap 0); [|lia].
Qed.

(** C7. Every state reached from the constructor by get, put and clear
    calls is well formed, and so is the state any further operation leaves:
    the ledger read forwards from head reaches tail, read backwards from
    tail it reaches head through the same nodes in reverse, and the index
    holds exactly the keys of the ledger's nodes, one node per key. *)
Theorem structural_invariant s o :
  reachable None_key None_value time_zero float_ge float_add s →
  well_formed s ∧ well_formed (exec None_value float_ge float_add o s).
Proof.
  intros Hs. split.
  - apply reachable_Repr in Hs as [lm HR]. by eapply Repr_well_formed.
  - assert (reachable None_key None_value time_zero float_ge float_add (exec None_value float_ge float_add o s)) as Hs'
      by (by constructor).
    apply reachable_Repr in Hs' as [lm HR]. by eapply Repr_well_formed.
Qed.

(** C8. On any reachable state clear returns, and afterwards size() is 0,
    the index is empty, the ledger holds no record, the two sentinels are
    linked directly to each other, get returns None for every key without
    changing the state, and a second clear leaves the same state. *)
Theorem clear_empties s :
  reachable None_key None_value time_zero float_ge float_add s →
  ∃ s', clear s = (Return (), s') ∧
    size s' = 0 ∧
    cache s' = ∅ ∧
    items s' = Some [] ∧
    nxt (store s') (head s') = Some (tail s') ∧
    prv (store s') (tail s') = Some (head s') ∧
    (∀ now k, get None_value float_ge now k s' = (Return None_value, s')) ∧
    clear s' = (Return (), s').
Proof.
  intros [lm HR]%reachable_Repr.
  destruct (clear_run _ _ HR) as (st' & Hrun & _ & HR').
  eexists. split; [exact Hrun|].
  pose proof HR' as [[[_ (Hn & Hp & _)] _ _ _] _]. simpl in Hn, Hp.
  split_and!.
  - by rewrite (Repr_size _ _ HR').
  - done.
  - by rewrite (Repr_items _ _ HR').
  - done.
  - done.
  - intros now k. by apply get_miss_run.
  - by apply clear_empty_run.
Qed.

(** C3. get never returns an expired value.  With [m] the records on the
    ledger: a key is in the index exactly when the ledger has a record for
    it; on a key that is absent get returns None and leaves the state as it
    is; on a key whose record expires at or before the clock reading, get
    returns None and removes that one record from the index and the ledger,
    every other record staying in place (no sweep); otherwise get returns
    the stored value and moves the record to the front, the index staying
    as it is.  So whatever get returns is None or the value of a record that
    has not expired. *)
Theorem get_never_returns_expired s m now k :
  reachable None_key None_value time_zero float_ge float_add s →
  items s = Some m →
  (is_Some (cache s !! k) ↔ k ∈ rkey <$> m) ∧
  (cache s !! k = None → get None_value float_ge now k s = (Return None_value, s)) ∧
  (∀ m1 d m2, m = m1 ++ d :: m2 → rkey d = k → float_ge now (rexpiry d) = true →
     ∃ s', get None_value float_ge now k s = (Return None_value, s') ∧
       items s' = Some (m1 ++ m2) ∧
       cache s' = delete k (cache s)) ∧
  (∀ m1 d m2, m = m1 ++ d :: m2 → rkey d = k → float_ge now (rexpiry d) = false →
     ∃ s', get None_value float_ge now k s = (Return (rvalue d), s') ∧
       items s' = Some (d :: m1 ++ m2) ∧
       cache s' = cache s) ∧
  (∀ r s', get None_value float_ge now k s = (r, s') →
     r = Return None_value ∨
     ∃ d, d ∈ m ∧ rkey d = k ∧ float_ge now (rexpiry d) = false ∧ r = Return (rvalue d)).
Proof.
  intros Hs Hm.
  assert (∀ m1 d m2, m = m1 ++ d :: m2 → rkey d = k → float_ge now (rexpiry d) = true →
     ∃ s', get None_value float_ge now k s = (Return None_value, s') ∧
       items s' = Some (m1 ++ m2) ∧ cache s' = delete k (cache s)) as Hexpired.
  { intros m1 d m2 -> <- He.
    destruct (reachable_split _ _ _ _ Hs Hm) as (lm1 & a & lm2 & HR & <- & <-).
    destruct (get_expired_run now _ _ _ _ _ HR He) as (st' & Hrun & _ & HR').
    eexists. split_and!; [exact Hrun | | done].
    by rewrite (Repr_items _ _ HR'), fmap_app. }
  assert (∀ m1 d m2, m = m1 ++ d :: m2 → rkey d = k → float_ge now (rexpiry d) = false →
     ∃ s', get None_value float_ge now k s = (Return (rvalue d), s') ∧
       items s' = Some (d :: m1 ++ m2) ∧ cache s' = cache s) as Hhit.
  { intros m1 d m2 -> <- He.
    destruct (reachable_split _ _ _ _ Hs Hm) as (lm1 & a & lm2 & HR & <- & <-).
    destruct (get_hit_run now _ _ _ _ _ HR He) as (st' & Hrun & _ & HR').
    eexists. split_and!; [exact Hrun | | done].
    by rewrite (Repr_items _ _ HR'), fmap_cons, fmap_app. }
  destruct (reachable_items _ _ Hs Hm) as (lm & HR & <-).
  pose proof (Repr_index _ _ k HR) as Hidx.
  split_and!; [done | by apply get_miss_run | done | done |].
  intros r s' Hget. destruct (cache s !! k) as [a|] eqn:Hk.
  - destruct (key_split lm.*2 k) as (m1 & d & m2 & E & Hd); [by apply Hidx|].
    destruct (float_ge now (rexpiry d)) eqn:Hge.
    + destruct (Hexpired _ _ _ E Hd) as (s'' & Hrun & _); [done|]. left. congruence.
    + destruct (Hhit _ _ _ E Hd) as (s'' & Hrun & _); [done|]. right.
      exists d. split_and!; [|done|done|congruence].
      rewrite E. apply elem_of_app. right. left.
  - rewrite get_miss_run in Hget by done. left. congruence.
Qed.

(** C5, amended. A put with a positive TTL on a key that is in the index,
    expired or not, whose float sum [now + ttl_ms] exists, overwrites the
    value of its record, sets its expiry to that sum, and moves the record
    to the front; the index is the same map as before (the key still refers
    to the same node), size() is unchanged, and every other record keeps its
    value, its expiry and its relative position: nothing is swept or
    evicted.  When the sum does not exist (the TTL is beyond the float
    range) the put raises OverflowError and the state is as it was. *)
Theorem put_existing_updates_in_place s m1 d m2 now clock v ttl_ms :
  reachable None_key None_value time_zero float_ge float_add s →
  items s = Some (m1 ++ d :: m2) →
  0 < ttl_ms →
  match float_add now ttl_ms with
  | Some e =>
      ∃ s', put float_ge float_add now clock (rkey d) v ttl_ms s = (Return (), s') ∧
        items s' = Some ((rkey d, v, e) :: m1 ++ m2) ∧
        cache s' = cache s ∧
        size s' = size s
  | None =>
      put float_ge float_add now clock (rkey d) v ttl_ms s = (Raise OverflowError, s)
  end.
Proof.
  intros Hs Hm Httl.
  destruct (float_add now ttl_ms) as [e|] eqn:Hadd; [|by apply put_overflow_run].
  destruct (reachable_split _ _ _ _ Hs Hm) as (lm1 & a & lm2 & HR & <- & <-).
  destruct (put_existing_run now clock v ttl_ms e _ _ _ _ _ HR Httl Hadd)
    as (st' & Hrun & _ & HR').
  eexists. split_and!; [exact Hrun | | done | done].
  by rewrite (Repr_items _ _ HR'), fmap_cons, fmap_app.
Qed.

(** C10, amended. A put with a positive TTL of a key that is not in the
    index, while size() is below the capacity and the float sum
    [now + ttl_ms] exists, removes nothing: the new record, expiring at that
    sum, is inserted at the front of the ledger, every record that was there
    keeps its place, value and expiry, every key of the index still refers
    to its node, whose record is unchanged, and size() grows by exactly one.
    When the sum does not exist the put raises OverflowError and the state
    is as it was: nothing is inserted. *)
Theorem put_new_with_room s m now clock k v ttl_ms :
  reachable None_key None_value time_zero float_ge float_add s →
  items s = Some m →
  cache s !! k = None →
  0 < ttl_ms →
  size s < capacity s →
  match float_add now ttl_ms with
  | Some e =>
      ∃ s', put float_ge float_add now clock k v ttl_ms s = (Return (), s') ∧
        items s' = Some ((k, v, e) :: m) ∧
        size s' = size s + 1 ∧
        (∀ k' a, cache s !! k' = Some a →
           cache s' !! k' = Some a ∧ dat (store s') a = dat (store s) a)
  | None => put float_ge float_add now clock k v ttl_ms s = (Raise OverflowError, s)
  end.
Proof.
  intros Hs Hm Hk Httl Hroom.
  destruct (float_add now ttl_ms) as [e|] eqn:Hadd; [|by apply put_overflow_run].
  destruct (reachable_items _ _ Hs Hm) as (lm & HR & <-).
  destruct (put_new_run now clock k v ttl_ms e _ _ HR Hk Httl Hadd)
    as (a & c' & st' & Hrun & Ha & Hd & HR').
  rewrite (Repr_size _ _ HR) in Hroom.
  rewrite make_room_spare in HR' by done.
  eexists. split_and!; [exact Hrun | | |].
  - by rewrite (Repr_items _ _ HR').
  - rewrite (Repr_size _ _ HR'), (Repr_size _ _ HR). simpl. lia.
  - intros k' a' Hk'. split.
    + apply (Repr_lookup _ _ _ _ HR'). apply (Repr_lookup _ _ _ _ HR) in Hk' as (d' & Hin & Hd').
      exists d'. split; [by right | done].
    + simpl. apply Hd. intros ->.
      apply (Repr_lookup _ _ _ _ HR) in Hk' as (d' & Hin & _).
      pose proof (Repr_dat _ _ _ _ HR Hin) as Hda. unfold dat in Hda. by rewrite Ha in Hda.
Qed.

(** C2, amended. A put with a positive TTL of a key that is not in the
    index, while size() has reached the capacity and the float sum
    [now + ttl_ms] exists, first sweeps: every record that has expired at
    the clock reading taken for its key is removed, and the records that are
    still live stay, in order.  Only if the live records still number at
    least the capacity is one more record removed, the last one of the
    ledger (the least recently used, just before tail).  The new record,
    expiring at the sum, then goes to the front, and the index holds exactly
    the keys of the resulting ledger.  So a record that was live at the
    sweep is gone only if it was that last one and the sweep had freed no
    slot.  When the sum does not exist the put raises OverflowError before
    any sweep and the state is as it was. *)
Theorem put_full_sweeps_then_evicts s m now clock k v ttl_ms :
  reachable None_key None_value time_zero float_ge float_add s →
  items s = Some m →
  cache s !! k = None →
  0 < ttl_ms →
  capacity s ≤ size s →
  let swept := filter (live float_ge clock) m in
  let kept :=
    if Z.of_nat (length swept) >=? capacity s then removelast swept else swept in
  match float_add now ttl_ms with
  | Some e =>
      ∃ s', put float_ge float_add now clock k v ttl_ms s = (Return (), s') ∧
        items s' = Some ((k, v, e) :: kept) ∧
        (∀ k', is_Some (cache s' !! k') ↔ k' ∈ rkey <$> (k, v, e) :: kept) ∧
        (∀ d, d ∈ m → live float_ge clock d →
           d ∈ kept ∨ (capacity s ≤ Z.of_nat (length swept) ∧ last swept = Some d))
  | None => put float_ge float_add now clock k v ttl_ms s = (Raise OverflowError, s)
  end.
Proof.
  intros Hs Hm Hk Httl Hfull swept kept.
  destruct (float_add now ttl_ms) as [e|] eqn:Hadd; [|by apply put_overflow_run].
  destruct (reachable_items _ _ Hs Hm) as (lm & HR & <-).
  destruct (put_new_run now clock k v ttl_ms e _ _ HR Hk Httl Hadd)
    as (a & c' & st' & Hrun & _ & _ & HR').
  rewrite (Repr_size _ _ HR) in Hfull.
  assert ((make_room (λ ad, live float_ge clock ad.2) (capacity s) lm).*2 = kept) as Hkept.
  { rewrite make_room_snd. unfold make_room. rewrite length_fmap.
    by destruct (Z.geb_spec (Z.of_nat (length lm)) (capacity s)); [|lia]. }
  eexists. split_and!; [exact Hrun | | |].
  - by rewrite (Repr_items _ _ HR'), fmap_cons, Hkept.
  - intros k'. rewrite (Repr_index _ _ k' HR'), fmap_cons, Hkept. done.
  - intros d Hd Hlive.
    assert (d ∈ swept) as Hsw by (by apply list_elem_of_filter).
    unfold kept. destruct (Z.geb_spec (Z.of_nat (length swept)) (capacity s)); [|by left].
    destruct swept as [|x sw _] using rev_ind; [by apply elem_of_nil in Hsw|].
    rewrite removelast_last, last_snoc.
    apply elem_of_app in Hsw as [?|Hx%list_elem_of_singleton]; [by left|].
    subst. by right.
Qed.

(** C9. In put of a new key, at the point reached after the new node is
    allocated and the sweep has run, if the index still holds at least
    capacity entries then the ledger is not empty: the node before tail is
    a real node, neither sentinel, _remove_tail returns and detaches it, and
    the key that node carries is in the index and refers to it, so the
    deletion that follows finds it.  Hence a put with a positive TTL never
    fails in its eviction branch: it returns whenever the float sum
    [now + ttl_ms] exists, and otherwise raises OverflowError at that sum,
    before it touches the cache. *)
Theorem eviction_is_safe s now clock k v ttl_ms e :
  reachable None_key None_value time_zero float_ge float_add s →
  let s0 := (alloc (mkNode k v e None None) s).2 in
  ∃ s1, _cleanup_expired float_ge clock s0 = (Return (), s1) ∧
    (capacity s1 ≤ size s1 →
       ∃ l lru s2 n,
         forward s1 = Some (l ++ [lru]) ∧
         lru ≠ head s1 ∧ lru ≠ tail s1 ∧
         _remove_tail s1 = (Return lru, s2) ∧
         store s2 !! lru = Some n ∧
         cache s2 !! key n = Some lru) ∧
    (0 < ttl_ms →
       match float_add now ttl_ms with
       | Some _ => ∃ s', put float_ge float_add now clock k v ttl_ms s = (Return (), s')
       | None => put float_ge float_add now clock k v ttl_ms s = (Raise OverflowError, s)
       end).
Proof.
  intros [lm HR]%reachable_Repr s0.
  pose proof (alloc_Repr (mkNode k v e None None) _ _ HR) as HR0.
  fold s0 in HR0.
  destruct (_cleanup_expired_run clock s0 lm HR0) as (c1 & st1 & Hrun1 & _ & HR1).
  eexists. split_and!; [exact Hrun1 | |].
  2: { intros Httl. destruct (float_add now ttl_ms) as [e'|] eqn:Hadd;
         [by eapply put_returns | by apply put_overflow_run]. }
  intros Hfull. rewrite (Repr_size _ _ HR1) in Hfull.
  pose proof (inv_capacity _ _ (proj1 HR1)) as Hcap.
  destruct (filter _ lm) as [|[a d] sw _] using rev_ind; [simpl in *; lia|].
  destruct (evict_lru_run _ _ _ _ HR1) as (st2 & Htail & Hh & Ht & Hka & _ & Hd2 & _).
  assert (dat st2 a = Some d) as (n & Hn & ->)%dat_Some.
  { rewrite Hd2. apply (Repr_dat _ _ a d HR1). apply elem_of_app. right. left. }
  exists sw.*1, a, (with_store st2 (with_cache c1 (with_store st1 s0))), n. split_and!; [|done|done|exact Htail|exact Hn|exact Hka].
  destruct (Inv_forward _ _ (proj1 HR1)) as [-> _]. by rewrite fmap_app.
Qed.

(** C4, amended. On a new cache of capacity N >= 2: after N puts of
    distinct keys (first [u1], then [u2], then [ps]), a get of the first key
    while its record has not expired, and the put of one more distinct key
    [w] at whose sweep none of the N records has expired, every one of the
    N+1 puts having a positive TTL whose float sum [now + ttl_ms] exists
    (that sum is the expiry the put stores), the get returned the first
    value, the first key is still in the index and a get before its expiry
    returns its value, and the second key is the one evicted: it is out of
    the index and get returns None for it.  The ledger then holds the new
    record, the first one, and the others from the most recent down. *)
Theorem recency_protects_first_key N u1 u2 ps w tg s0 :
  __init__ None_key None_value time_zero N = inr s0 →
  Z.of_nat (length (u1 :: u2 :: ps)) = N →
  NoDup (p_key <$> (u1 :: u2 :: ps) ++ [w]) →
  Forall (λ u, 0 < p_ttl u) ((u1 :: u2 :: ps) ++ [w]) →
  Forall (stores float_add) ((u1 :: u2 :: ps) ++ [w]) →
  float_ge tg (p_expiry u1) = false →
  Forall (λ u, float_ge (p_clock w (p_key u)) (p_expiry u) = false) (u1 :: u2 :: ps) →
  let s1 := execs None_value float_ge float_add (Put_of <$> u1 :: u2 :: ps) s0 in
  let s2 := exec None_value float_ge float_add (Get tg (p_key u1)) s1 in
  let s3 := exec None_value float_ge float_add (Put_of w) s2 in
  get None_value float_ge tg (p_key u1) s1 = (Return (p_value u1), s2) ∧
  put float_ge float_add (p_now w) (p_clock w) (p_key w) (p_value w) (p_ttl w) s2 = (Return (), s3) ∧
  items s3 = Some (record_of w :: record_of u1 :: reverse (record_of <$> ps)) ∧
  size s3 = N ∧
  is_Some (cache s3 !! p_key u1) ∧
  (∀ tf, float_ge tf (p_expiry u1) = false →
     ∃ s4, get None_value float_ge tf (p_key u1) s3 = (Return (p_value u1), s4)) ∧
  cache s3 !! p_key u2 = None ∧
  (∀ tf, get None_value float_ge tf (p_key u2) s3 = (Return None_value, s3)).
Proof.
  intros Hinit HN Hnd Httl Hst Htg Hlive s1 s2 s3.
  apply __init___run in Hinit as (HNpos & Hcap0 & _ & HR0).
  rewrite fmap_app in Hnd. apply NoDup_app in Hnd as (Hnd1 & Hq & _).
  pose proof Hnd1 as Hnd1'.
  rewrite !fmap_cons in Hnd1, Hq.
  change (p_key <$> [w]) with [p_key w] in Hq.
  apply NoDup_cons in Hnd1 as [Hu1 [Hu2 _]%NoDup_cons].
  apply not_elem_of_cons in Hu1 as [Hu12 Hu1].
  assert (p_key w ≠ p_key u1) as Hw1.
  { intros E. apply (Hq (p_key u1)); [left|]. rewrite E. left. }
  assert (p_key w ≠ p_key u2) as Hw2.
  { intros E. apply (Hq (p_key u2)); [right; left|]. rewrite E. left. }
  assert (p_key w ∉ p_key <$> ps) as Hws.
  { intros Hin. apply (Hq (p_key w)); [by do 2 right|left]. }
  apply Forall_app in Httl as [Httl [Hqt _]%Forall_cons].
  apply Forall_app in Hst as [Hst [Hqe _]%Forall_cons].
  destruct (puts_fresh_run (u1 :: u2 :: ps) s0 [] HR0) as (lm1 & HR1 & E1 & Hcap1);
    [exact Hnd1' | by intros ? _ ?%elem_of_nil | done | done | simpl in *; lia |].
  fold s1 in HR1, Hcap1. rewrite app_nil_r in E1.
  rewrite !fmap_cons, !reverse_cons, <- app_assoc in E1.
  apply fmap_app_inv in E1 as (lmr & lm' & Er & E1 & ->).
  symmetry in Er, E1. apply fmap_cons_inv in E1 as ([a2 d2] & lm'' & Ed2 & E1 & ->).
  symmetry in E1. apply fmap_cons_inv in E1 as ([a1 d1] & lmn & Ed1 & E1 & ->).
  symmetry in E1. apply fmap_nil_inv in E1 as ->. simpl in Ed1, Ed2. subst d1 d2.
  assert (rkey <$> lmr.*2 = reverse (p_key <$> ps)) as Ekr
    by (by rewrite Er, fmap_reverse, rkey_record_of).
  (* the get of the first key *)
  assert (Repr s1 ((lmr ++ [(a2, record_of u2)]) ++ (a1, record_of u1) :: [])) as HR1'
    by (by rewrite <- app_assoc).
  destruct (get_hit_run tg _ _ _ _ _ HR1' Htg) as (st2 & Hget & _ & HR2).
  change (rkey (record_of u1)) with (p_key u1) in Hget.
  change (rvalue (record_of u1)) with (p_value u1) in Hget.
  assert (s2 = with_store st2 s1) as Es2 by (unfold s2; by rewrite exec_Get, Hget).
  rewrite <- Es2 in Hget, HR2. rewrite app_nil_r in HR2.
  (* the put of the new key *)
  assert (cache s2 !! p_key w = None) as Hkq.
  { apply (Repr_lookup_None _ _ _ HR2).
    rewrite fmap_cons, fmap_app, fmap_cons, fmap_app, Ekr.
    rewrite not_elem_of_cons, not_elem_of_app, elem_of_reverse.
    split_and!; [done | done |]. by intros ?%list_elem_of_singleton. }
  destruct (put_new_run (p_now w) (p_clock w) (p_key w) (p_value w) (p_ttl w) (p_expiry w)
              _ _ HR2 Hkq Hqt Hqe)
    as (a & c' & st3 & Hput & _ & _ & HR3).
  assert (s3 = with_cache c' (with_store st3 s2)) as Es3
    by (unfold s3, Put_of; by rewrite exec_Put, Hput).
  rewrite <- Es3 in Hput, HR3.
  assert (capacity s2 = N) as Hcap2 by (rewrite Es2; simpl; congruence).
  assert (length lmr = length ps) as Hlenr.
  { rewrite <- (length_fmap snd lmr), Er, length_reverse, length_fmap. done. }
  assert (make_room (λ ad, live float_ge (p_clock w) ad.2) (capacity s2)
            ((a1, record_of u1) :: lmr ++ [(a2, record_of u2)])
          = (a1, record_of u1) :: lmr) as Hroom.
  { unfold make_room. rewrite filter_all; last first.
    { intros [a' d'] Hin. cbn [snd].
      assert (d' ∈ record_of <$> u1 :: u2 :: ps) as (u & -> & Hu)%list_elem_of_fmap.
      { rewrite !fmap_cons.
        apply elem_of_cons in Hin as [[= _ ->]|Hin]; [left|].
        apply elem_of_app in Hin as [Hin|Hin%list_elem_of_singleton];
          [|injection Hin as _ ->; right; left].
        do 2 right. apply elem_of_reverse. rewrite <- Er.
        apply list_elem_of_fmap. by exists (a', d'). }
      rewrite Forall_forall in Hlive. apply (Hlive _ Hu). }
    rewrite Hcap2. cbn [length] in *. rewrite length_app. cbn [length].
    destruct (Z.geb_spec (Z.of_nat (S (length lmr + 1))) N); [|lia].
    rewrite app_comm_cons. apply removelast_last. }
  rewrite Hroom in HR3.
  assert (cache s3 !! p_key u1 = Some a1) as Hk1.
  { apply (Repr_lookup _ _ _ _ HR3). exists (record_of u1). split; [right; left|done]. }
  assert (cache s3 !! p_key u2 = None) as Hk2.
  { apply (Repr_lookup_None _ _ _ HR3).
    rewrite !fmap_cons, Ekr.
    rewrite !not_elem_of_cons, elem_of_reverse.
    split_and!; [by intros E; apply Hw2 | by intros E; apply Hu12 | done]. }
  split_and!; [exact Hget | exact Hput | | | by rewrite Hk1 | | exact Hk2 |].
  - rewrite (Repr_items _ _ HR3), !fmap_cons, Er. done.
  - rewrite (Repr_size _ _ HR3). cbn [length]. rewrite Hlenr. cbn [length] in HN. lia.
  - intros tf Ht.
    assert (Repr s3 ([(a, record_of w)] ++ (a1, record_of u1) :: lmr)) as HR3' by done.
    destruct (get_hit_run tf _ _ _ _ _ HR3' Ht) as (st4 & Hget4 & _). eauto.
  - intros tf. by apply get_miss_run.
Qed.

(** * Beyond the specification: the methods against the list of records *)

(** ** The list model on a ledger with distinct keys *)

Lemma lookup_record_None k (m : list record) :
  k ∉ rkey <$> m → lookup_record k m = None.
Proof.
  induction m as [|d m IH]; [done|]. rewrite fmap_cons, not_elem_of_cons.
  intros [Hk Hm]. simpl. case_decide; [congruence|]. by apply IH.
Qed.

Lemma remove_key_absent k (m : list record) :
  k ∉ rkey <$> m → remove_key k m = m.
Proof.
  intros Hk. apply filter_all. intros d Hd E. apply Hk.
  apply list_elem_of_fmap. by exists d.
Qed.

Lemma lookup_record_split (m1 : list record) d m2 :
  NoDup (rkey <$> m1 ++ d :: m2) →
  lookup_record (rkey d) (m1 ++ d :: m2) = Some d ∧
  remove_key (rkey d) (m1 ++ d :: m2) = m1 ++ m2.
Proof.
  rewrite fmap_app, fmap_cons.
  intros (_ & Hdisj & [Hd _]%NoDup_cons)%NoDup_app.
  assert (rkey d ∉ rkey <$> m1) as Hd1.
  { intros Hin. apply (Hdisj _ Hin). left. }
  split.
  - clear Hdisj. induction m1 as [|d1 m1 IH]; simpl.
    + by case_decide.
    + rewrite fmap_cons, not_elem_of_cons in Hd1. destruct Hd1 as [Hne Hd1].
      case_decide; [congruence|]. by apply IH.
  - unfold remove_key. rewrite filter_app, filter_cons_False by (intros E; by apply E).
    fold (remove_key (rkey d) m1) (remove_key (rkey d) m2).
    by rewrite !remove_key_absent.
Qed.

Lemma lookup_record_Some k (m : list record) d :
  lookup_record k m = Some d → d ∈ m ∧ rkey d = k.
Proof.
  induction m as [|d' m IH]; [done|]. simpl. case_decide.
  - intros [= ->]. split; [left|done].
  - intros [Hin Hk]%IH. split; [by right|done].
Qed.

Lemma list_get_miss now k (m : list record) :
  k ∉ rkey <$> m → list_get None_value float_ge now k m = (None_value, m).
Proof. intros Hk. unfold list_get. by rewrite lookup_record_None. Qed.

Lemma list_get_expired now (m1 : list record) d m2 :
  NoDup (rkey <$> m1 ++ d :: m2) → float_ge now (rexpiry d) = true →
  list_get None_value float_ge now (rkey d) (m1 ++ d :: m2) = (None_value, m1 ++ m2).
Proof.
  intros Hnd He. unfold list_get.
  destruct (lookup_record_split _ _ _ Hnd) as [-> ->]. by rewrite He.
Qed.

Lemma list_get_hit now (m1 : list record) d m2 :
  NoDup (rkey <$> m1 ++ d :: m2) → float_ge now (rexpiry d) = false →
  list_get None_value float_ge now (rkey d) (m1 ++ d :: m2) = (rvalue d, d :: m1 ++ m2).
Proof.
  intros Hnd He. unfold list_get.
  destruct (lookup_record_split _ _ _ Hnd) as [-> ->]. by rewrite He.
Qed.

(** ** One call *)

(** Every call reads and writes the ledger as the list model says, and
    leaves the capacity, the sentinels and the sentinels' fields alone. *)
Lemma run_refines o s lm :
  Repr s lm →
  ∃ lm', Repr (exec None_value float_ge float_add o s) lm' ∧
    (run None_value float_ge float_add o s).1 = (list_run None_value float_ge float_add (capacity s) o lm.*2).1 ∧
    lm'.*2 = (list_run None_value float_ge float_add (capacity s) o lm.*2).2 ∧
    capacity (exec None_value float_ge float_add o s) = capacity s ∧
    head (exec None_value float_ge float_add o s) = head s ∧
    tail (exec None_value float_ge float_add o s) = tail s ∧
    (∀ z, z ∉ lm.*1 → is_Some (store s !! z) →
          dat (store (exec None_value float_ge float_add o s)) z = dat (store s) z).
Proof.
  intros HR. pose proof (Repr_NoDup_keys _ _ HR) as Hkeys.
  destruct o as [now k|now clock k v ttl|]; unfold exec; simpl.
  - destruct (cache s !! k) as [a|] eqn:Hk.
    + destruct (Repr_split _ _ _ _ HR Hk) as (lm1 & d & lm2 & -> & <-).
      rewrite fmap_app, fmap_cons in Hkeys |- *. simpl in Hkeys |- *.
      destruct (float_ge now (rexpiry d)) eqn:He.
      * destruct (get_expired_run now _ _ _ _ _ HR He) as (st' & -> & Hd & HR').
        rewrite list_get_expired by done.
        exists (lm1 ++ lm2). rewrite fmap_app.
        split_and!; try done; intros z _ _; apply Hd.
      * destruct (get_hit_run now _ _ _ _ _ HR He) as (st' & -> & Hd & HR').
        rewrite list_get_hit by done.
        exists ((a, d) :: lm1 ++ lm2). rewrite fmap_cons, fmap_app.
        split_and!; try done; intros z _ _; apply Hd.
    + rewrite get_miss_run by done.
      rewrite list_get_miss by (by apply (Repr_lookup_None _ _ _ HR)).
      exists lm. done.
  - rewrite run_bind. unfold list_put.
    destruct (Z.leb_spec ttl 0) as [Httl|Httl].
    { rewrite put_invalid_run by done. exists lm. done. }
    destruct (float_add now ttl) as [e|] eqn:Hadd.
    2: { rewrite put_overflow_run by done. exists lm. done. }
    destruct (cache s !! k) as [a|] eqn:Hk.
    + destruct (Repr_split _ _ _ _ HR Hk) as (lm1 & d & lm2 & -> & <-).
      destruct (put_existing_run now clock v ttl e _ _ _ _ _ HR Httl Hadd)
        as (st' & -> & Hd & HR').
      rewrite fmap_app, fmap_cons in Hkeys |- *. simpl in Hkeys |- *.
      destruct (lookup_record_split _ _ _ Hkeys) as [-> ->].
      exists ((a, (rkey d, v, e)) :: lm1 ++ lm2). rewrite fmap_cons, fmap_app.
      split_and!; try done.
      intros z Hz _. apply Hd. intros ->. apply Hz.
      rewrite fmap_app, fmap_cons. apply elem_of_app. right. left.
    + destruct (put_new_run now clock k v ttl e _ _ HR Hk Httl Hadd)
        as (a & c' & st' & -> & Ha & Hd & HR').
      rewrite lookup_record_None by (by apply (Repr_lookup_None _ _ _ HR)).
      eexists. split; [exact HR'|]. rewrite fmap_cons, make_room_snd.
      split_and!; try done.
      intros z _ [n Hn]. apply Hd. intros ->. congruence.
  - rewrite run_bind. destruct (clear_run _ _ HR) as (st' & -> & Hd & HR').
    exists []. split_and!; try done; intros z _ _; apply Hd.
Qed.

(** ** Sequences of calls *)

Lemma results_refine os s lm :
  Repr s lm →
  results None_value float_ge float_add os s = list_results None_value float_ge float_add (capacity s) os lm.*2.
Proof.
  revert s lm. induction os as [|o os IH]; intros s lm HR; [done|].
  destruct (run_refines o _ _ HR) as (lm' & HR' & Hres & Hlm' & Hcap & _).
  simpl. rewrite Hres. f_equal. rewrite (IH _ _ HR'), Hcap, Hlm'. done.
Qed.

(** The sentinels of a state: where they are and what they carry. *)
Lemma execs_frame os s lm :
  Repr s lm →
  capacity (execs None_value float_ge float_add os s) = capacity s ∧
  head (execs None_value float_ge float_add os s) = head s ∧
  tail (execs None_value float_ge float_add os s) = tail s ∧
  dat (store (execs None_value float_ge float_add os s)) (head s) = dat (store s) (head s) ∧
  dat (store (execs None_value float_ge float_add os s)) (tail s) = dat (store s) (tail s).
Proof.
  revert s lm. induction os as [|o os IH]; intros s lm HR; [done|].
  destruct (run_refines o _ _ HR) as (lm' & HR' & _ & _ & Hcap & Hh & Ht & Hd).
  destruct (IH _ _ HR') as (Hcap' & Hh' & Ht' & Hdh & Hdt).
  pose proof (inv_ledger _ _ (proj1 HR)) as Hled. pose proof Hled as [Hnd _].
  apply NoDup_cons in Hnd as [Hhl Hnd]. apply NoDup_app in Hnd as (_ & Hdisj & _).
  simpl. rewrite Hcap', Hh', Ht', Hcap, Hh, Ht. rewrite Hh in Hdh. rewrite Ht in Hdt.
  rewrite Hdh, Hdt. split_and!; try done.
  - apply Hd.
    + intros Hin. apply Hhl, elem_of_app. by left.
    + apply (Ledger_in_store _ _ _ _ _ Hled). left.
  - apply Hd.
    + intros Hin. apply (Hdisj _ Hin). left.
    + apply (Ledger_in_store _ _ _ _ _ Hled). right. apply elem_of_app. right. left.
Qed.

(** After a put that returns, the record written is at the front. *)
Lemma put_front now clock k v ttl e s lm :
  Repr s lm → 0 < ttl → float_add now ttl = Some e →
  ∃ s' a rest, put float_ge float_add now clock k v ttl s = (Return (), s') ∧
    Repr s' ((a, (k, v, e)) :: rest) ∧
    capacity s' = capacity s.
Proof.
  intros HR Httl Hadd. destruct (cache s !! k) as [a|] eqn:Hk.
  - destruct (Repr_split _ _ _ _ HR Hk) as (lm1 & d & lm2 & -> & <-).
    destruct (put_existing_run now clock v ttl e _ _ _ _ _ HR Httl Hadd)
      as (st' & Hrun & _ & HR').
    eauto 10.
  - destruct (put_new_run now clock k v ttl e _ _ HR Hk Httl Hadd)
      as (a & c' & st' & Hrun & _ & _ & HR'). eauto 10.
Qed.

Lemma take_app_take {A} (n : nat) (xs ys : list A) :
  take n (xs ++ take n ys) = take n (xs ++ ys).
Proof.
  rewrite !take_app. f_equal. rewrite take_take. f_equal. lia.
Qed.

Lemma make_room_all_live {A} (P : A → Prop) `{!∀ y, Decision (P y)} cap (y0 : A) (ys : list A) :
  (∀ y, y ∈ ys → P y) → 0 < cap → Z.of_nat (length ys) ≤ cap →
  y0 :: make_room P cap ys = take (Z.to_nat cap) (y0 :: ys).
Proof.
  intros Hall Hcap Hlen. unfold make_room. rewrite filter_all by done.
  destruct (Z.to_nat cap) as [|c] eqn:Ec; [lia|]. simpl. f_equal.
  destruct (Z.geb_spec (Z.of_nat (length ys)) cap).
  - rewrite removelast_firstn_len. f_equal. lia.
  - rewrite take_ge; [done|lia].
Qed.

Lemma make_room_length_le {A} (P : A → Prop) `{!∀ y, Decision (P y)} cap (ys : list A) :
  (length (make_room P cap ys) ≤ length ys)%nat.
Proof.
  unfold make_room. destruct (_ >=? _); [|done].
  pose proof (length_filter P ys).
  destruct (_ >=? _); [|done].
  destruct (filter P ys) as [|y0 ys' _] using rev_ind; [simpl; lia|].
  rewrite removelast_last. rewrite length_app in *. simpl in *. lia.
Qed.

(** Puts of distinct new keys, none of whose records expires meanwhile. *)
Lemma puts_recent_run (ps : list (@put_args K V time)) s lm :
  Repr s lm →
  NoDup (p_key <$> ps) →
  (∀ u, u ∈ ps → p_key u ∉ rkey <$> lm.*2) →
  Forall (λ u, 0 < p_ttl u) ps →
  Forall (stores float_add) ps →
  (∀ u u', u ∈ ps → u' ∈ ps → float_ge (p_clock u (p_key u')) (p_expiry u') = false) →
  (∀ u d, u ∈ ps → d ∈ lm.*2 → live float_ge (p_clock u) d) →
  ∃ lm', Repr (execs None_value float_ge float_add (Put_of <$> ps) s) lm' ∧
    lm'.*2 = take (Z.to_nat (capacity s)) (reverse (record_of <$> ps) ++ lm.*2).
Proof.
  revert s lm. induction ps as [|u ps IH]; intros s lm HR Hnd Hnew Httl Hst Hpair Hold.
  - exists lm. split; [done|]. simpl. rewrite take_ge; [done|].
    pose proof (inv_size _ _ (proj1 HR)) as Hsz. rewrite !length_fmap in *. lia.
  - apply NoDup_cons in Hnd as [Hu Hnd]. apply Forall_cons in Httl as [Hut Httl].
    apply Forall_cons in Hst as [Hue Hst].
    assert (cache s !! p_key u = None) as Hk.
    { apply (Repr_lookup_None _ _ _ HR). apply Hnew. left. }
    destruct (put_new_run (p_now u) (p_clock u) (p_key u) (p_value u) (p_ttl u) (p_expiry u)
                _ _ HR Hk Hut Hue)
      as (a & c' & st' & Hrun & _ & _ & HR').
    assert (exec None_value float_ge float_add (Put_of u) s = with_cache c' (with_store st' s)) as E0
      by (unfold Put_of; by rewrite exec_Put, Hrun).
    change (execs None_value float_ge float_add (Put_of <$> u :: ps) s)
      with (execs None_value float_ge float_add (Put_of <$> ps) (exec None_value float_ge float_add (Put_of u) s)).
    rewrite E0.
    set (lm1 := make_room (λ ad, live float_ge (p_clock u) ad.2) (capacity s) lm) in *.
    assert (∀ ad, ad ∈ lm1 → ad ∈ lm) as Hsub by (intros ad; apply make_room_sublist).
    destruct (IH _ _ HR' Hnd) as (lm' & HR'' & E); [|done|done| | |].
    + intros u' Hu'. rewrite !fmap_cons. apply not_elem_of_cons. split.
      * unfold rkey. simpl. intros Heq. apply Hu. rewrite <- Heq.
        by apply list_elem_of_fmap_2.
      * intros Hin. apply (Hnew u'); [by right|].
        apply list_elem_of_fmap in Hin as (d & -> & Hin).
        apply list_elem_of_fmap in Hin as (ad & -> & Hin%Hsub).
        apply list_elem_of_fmap. exists ad.2. split; [done|].
        by apply list_elem_of_fmap_2.
    + intros u1 u2 Hu1 Hu2. apply Hpair; by right.
    + intros u' d Hu' Hd'. rewrite fmap_cons in Hd'.
      apply elem_of_cons in Hd' as [->|Hd'].
      * apply (Hpair u' u); [by right|left].
      * apply Hold; [by right|].
        apply list_elem_of_fmap in Hd' as (ad & -> & Hin%Hsub).
        by apply list_elem_of_fmap_2.
    + exists lm'. split; [done|]. rewrite E. simpl capacity.
      rewrite fmap_cons. unfold lm1. rewrite make_room_snd.
      cbn [snd]. rewrite make_room_all_live.
      * change (record_of u) with ((a, record_of u).2).
        rewrite take_app_take, fmap_cons, reverse_cons, <- app_assoc. done.
      * intros d Hd. apply Hold; [left|done].
      * apply (inv_capacity _ _ (proj1 HR)).
      * pose proof (inv_size _ _ (proj1 HR)) as Hsz. rewrite !length_fmap in *. lia.
Qed.

(** ** Properties of the methods *)

(** X1. One call against the list model: on a reachable state whose
    ledger holds the records [m], a call returns or raises what the list
    model does on [m], leaves the ledger the list model leaves, and size()
    is the length of [m], expired records included. *)
Theorem call_follows_list_model s m o :
  reachable None_key None_value time_zero float_ge float_add s →
  items s = Some m →
  (run None_value float_ge float_add o s).1 = (list_run None_value float_ge float_add (capacity s) o m).1 ∧
  items (exec None_value float_ge float_add o s) = Some (list_run None_value float_ge float_add (capacity s) o m).2 ∧
  size s = Z.of_nat (length m).
Proof.
  intros Hs Hm. destruct (reachable_items _ _ Hs Hm) as (lm & HR & <-).
  destruct (run_refines o _ _ HR) as (lm' & HR' & Hres & Hlm' & _).
  split_and!; [done | | ].
  - by rewrite (Repr_items _ _ HR'), Hlm'.
  - by rewrite (Repr_size _ _ HR), length_fmap.
Qed.

(** X2. The whole behaviour of a cache: the outcomes (values returned and
    exceptions raised) of any sequence of get, put and clear calls on a
    newly constructed cache are those of the list model started empty. *)
Theorem behaviour_is_list_model cap s0 os :
  __init__ None_key None_value time_zero cap = inr s0 →
  results None_value float_ge float_add os s0 = list_results None_value float_ge float_add cap os [].
Proof.
  intros Hinit. apply __init___run in Hinit as (_ & Hcap & _ & HR).
  by rewrite (results_refine _ _ _ HR), Hcap.
Qed.


(** X4. clear gives back a new cache: after clear, on any reachable state,
    every sequence of calls has the outcomes it has on a cache newly
    constructed with the same capacity. *)
Theorem clear_is_like_new s s0 os :
  reachable None_key None_value time_zero float_ge float_add s →
  __init__ None_key None_value time_zero (capacity s) = inr s0 →
  results None_value float_ge float_add os (exec None_value float_ge float_add Clear s) = results None_value float_ge float_add os s0.
Proof.
  intros [lm HR]%reachable_Repr Hinit.
  apply __init___run in Hinit as (_ & Hcap & _ & HR0).
  destruct (run_refines Clear _ _ HR) as (lm' & HR' & _ & Hlm' & Hcap' & _).
  rewrite (results_refine _ _ _ HR'), (results_refine _ _ _ HR0), Hcap', Hcap, Hlm'.
  done.
Qed.

(** X5. What is put can be got: after a put with a positive TTL whose
    float sum [e] with the clock reading exists, of a new key or of one
    already present, expired or not, whether the cache is full or not, the
    record written expires at [e], a get of that key at any clock reading
    that is not [>= e] returns the value just written, and the record stays
    at the front of the ledger. *)
Theorem put_then_get s now clock k v ttl_ms e tg :
  reachable None_key None_value time_zero float_ge float_add s →
  0 < ttl_ms →
  float_add now ttl_ms = Some e →
  float_ge tg e = false →
  ∃ s' s'' rest,
    put float_ge float_add now clock k v ttl_ms s = (Return (), s') ∧
    items s' = Some ((k, v, e) :: rest) ∧
    get None_value float_ge tg k s' = (Return v, s'') ∧
    items s'' = Some ((k, v, e) :: rest).
Proof.
  intros [lm HR]%reachable_Repr Httl Hadd Htg.
  destruct (put_front now clock k v ttl_ms e _ _ HR Httl Hadd)
    as (s' & a & rest & Hput & HR' & _).
  assert (Repr s' ([] ++ (a, (k, v, e)) :: rest)) as HR'' by done.
  destruct (get_hit_run tg _ _ _ _ _ HR'' Htg) as (st'' & Hget & _ & HR3).
  exists s', (with_store st'' s'), (rest.*2). split_and!; [done | | done |].
  - by rewrite (Repr_items _ _ HR').
  - by rewrite (Repr_items _ _ HR3).
Qed.

(** X6. Expiry at the boundary: after a put with a positive TTL whose
    float sum [e] with the clock reading exists, a get of that key at a
    clock reading [>= e], equal to or past the expiry stored, returns None,
    takes the key out of the index and the record off the ledger, size()
    going down by one, and the rest of the ledger is as the put left it. *)
Theorem put_then_get_expired s now clock k v ttl_ms e tg :
  reachable None_key None_value time_zero float_ge float_add s →
  0 < ttl_ms →
  float_add now ttl_ms = Some e →
  float_ge tg e = true →
  ∃ s' s'' rest,
    put float_ge float_add now clock k v ttl_ms s = (Return (), s') ∧
    items s' = Some ((k, v, e) :: rest) ∧
    get None_value float_ge tg k s' = (Return None_value, s'') ∧
    items s'' = Some rest ∧
    cache s'' !! k = None ∧
    size s'' = size s' - 1.
Proof.
  intros [lm HR]%reachable_Repr Httl Hadd Htg.
  destruct (put_front now clock k v ttl_ms e _ _ HR Httl Hadd)
    as (s' & a & rest & Hput & HR' & _).
  assert (Repr s' ([] ++ (a, (k, v, e)) :: rest)) as HR'' by done.
  destruct (get_expired_run tg _ _ _ _ _ HR'' Htg) as (st'' & Hget & _ & HR3).
  exists s'. eexists. exists (rest.*2). split_and!; [done | | exact Hget | | |].
  - by rewrite (Repr_items _ _ HR').
  - by rewrite (Repr_items _ _ HR3).
  - simpl. apply lookup_delete_eq.
  - rewrite (Repr_size _ _ HR3), (Repr_size _ _ HR'). simpl. lia.
Qed.

(** X7. The only exceptions: on a reachable state a call raises nothing
    but the ValueError of a put whose TTL is zero or negative and the
    OverflowError of a put whose positive TTL has no float sum with the
    clock reading, and then the state is unchanged; get and clear always
    return, and no call ever raises KeyError or AttributeError. *)
Theorem only_invalid_ttl_raises s o e :
  reachable None_key None_value time_zero float_ge float_add s →
  (run None_value float_ge float_add o s).1 = Raise e →
  exec None_value float_ge float_add o s = s ∧
  ∃ now clock k v ttl_ms, o = Put now clock k v ttl_ms ∧
    (e = ValueError "TTL must be positive" ∧ ttl_ms ≤ 0 ∨
     e = OverflowError ∧ 0 < ttl_ms ∧ float_add now ttl_ms = None).
Proof.
  intros [lm HR]%reachable_Repr Hraise.
  destruct (run_refines o _ _ HR) as (lm' & _ & Hres & _).
  rewrite Hres in Hraise. destruct o as [now k|now clock k v ttl|]; simpl in Hraise.
  - by destruct (list_get None_value float_ge now k lm.*2).
  - unfold list_put in Hraise. destruct (Z.leb_spec ttl 0) as [Httl|Httl].
    + injection Hraise as <-. split; [|eauto 10].
      by rewrite exec_Put, put_invalid_run.
    + destruct (float_add now ttl) as [e'|] eqn:Hadd.
      * by destruct (lookup_record k lm.*2).
      * injection Hraise as <-. split; [|eauto 10].
        by rewrite exec_Put, put_overflow_run.
  - done.
Qed.

(** X8. Capacity and sentinels are fixed: whatever calls are made on a
    cache constructed with capacity [cap], the capacity field stays [cap],
    head and tail stay the two objects the constructor made, still carrying
    key None, value None and expiry 0, and no key of the index refers to a
    sentinel (also when None itself is used as a key). *)
Theorem capacity_and_sentinels_fixed cap s0 os :
  __init__ None_key None_value time_zero cap = inr s0 →
  let s := execs None_value float_ge float_add os s0 in
  capacity s = cap ∧
  head s = head s0 ∧
  tail s = tail s0 ∧
  dat (store s) (head s) = Some (None_key, None_value, time_zero) ∧
  dat (store s) (tail s) = Some (None_key, None_value, time_zero) ∧
  (∀ k a, cache s !! k = Some a → a ≠ head s ∧ a ≠ tail s).
Proof.
  intros Hinit s.
  assert (reachable None_key None_value time_zero float_ge float_add s) as [lm HR]%reachable_Repr
    by (apply reachable_execs; by econstructor).
  pose proof Hinit as Hinit'. apply __init___run in Hinit' as (_ & Hcap & _ & HR0).
  destruct (execs_frame os _ _ HR0) as (Hc & Hh & Ht & Hdh & Hdt).
  fold s in Hc, Hh, Ht, Hdh, Hdt.
  assert (dat (store s0) (head s0) = Some (None_key, None_value, time_zero) ∧
          dat (store s0) (tail s0) = Some (None_key, None_value, time_zero)) as [Eh Et].
  { unfold __init__ in Hinit. destruct (cap <=? 0); [done|].
    injection Hinit as <-. done. }
  split_and!; [congruence | done | done | by rewrite Hh, Hdh | by rewrite Ht, Hdt |].
  intros k a [Hin _]%(inv_index _ _ (proj1 HR)).
  destruct (inv_ledger _ _ (proj1 HR)) as [Hnd _].
  apply NoDup_cons in Hnd as [Hhl Hnd]. apply NoDup_app in Hnd as (_ & Hdisj & _).
  split; intros ->.
  - apply Hhl, elem_of_app. by left.
  - apply (Hdisj _ Hin). left.
Qed.

(** X9. Expiry comes before eviction: when a put of a new key with a
    positive TTL whose float sum [e] with the clock reading exists finds
    the cache full and at least one record expired at the sweep, no live
    record is evicted: the ledger afterwards is the new record, expiring at
    [e], followed by all the records that were live, in their order. *)
Theorem expired_record_spares_live_ones s m now clock k v ttl_ms e d :
  reachable None_key None_value time_zero float_ge float_add s →
  items s = Some m →
  cache s !! k = None →
  0 < ttl_ms →
  float_add now ttl_ms = Some e →
  capacity s ≤ size s →
  d ∈ m →
  float_ge (clock (rkey d)) (rexpiry d) = true →
  ∃ s', put float_ge float_add now clock k v ttl_ms s = (Return (), s') ∧
    items s' = Some ((k, v, e) :: filter (live float_ge clock) m).
Proof.
  intros Hs Hm Hk Httl Hadd Hfull Hd He.
  destruct (reachable_items _ _ Hs Hm) as (lm & HR & <-).
  destruct (put_new_run now clock k v ttl_ms e _ _ HR Hk Httl Hadd)
    as (a & c' & st' & Hrun & _ & _ & HR').
  eexists. split; [exact Hrun|].
  rewrite (Repr_items _ _ HR'), fmap_cons, make_room_snd. do 2 f_equal.
  rewrite (Repr_size _ _ HR) in Hfull.
  pose proof (inv_size _ _ (proj1 HR)) as Hsz. rewrite length_fmap in Hsz.
  assert (length (filter (live float_ge clock) lm.*2) < length lm.*2)%nat as Hlt.
  { apply (length_filter_lt _ _ d); [done|]. unfold live. by rewrite He. }
  rewrite length_fmap in Hlt.
  unfold make_room. rewrite length_fmap.
  destruct (Z.geb_spec (Z.of_nat (length lm)) (capacity s)); [|lia].
  by destruct (Z.geb_spec (Z.of_nat (length (filter (live float_ge clock) lm.*2))) (capacity s));
    [lia|].
Qed.

(** X10. The cache keeps the most recent keys: after puts of distinct keys
    on a new cache of capacity [cap], each with a positive TTL whose float
    sum with its clock reading exists and is the expiry stored, none of the
    records expiring meanwhile, the ledger holds the records of the last
    [cap] puts, the latest first, and the index holds exactly their keys:
    every earlier key has been evicted, in the order of insertion. *)
Theorem puts_keep_most_recent cap s0 ps :
  __init__ None_key None_value time_zero cap = inr s0 →
  NoDup (p_key <$> ps) →
  Forall (λ u, 0 < p_ttl u) ps →
  Forall (stores float_add) ps →
  (∀ u u', u ∈ ps → u' ∈ ps → float_ge (p_clock u (p_key u')) (p_expiry u') = false) →
  let s := execs None_value float_ge float_add (Put_of <$> ps) s0 in
  let recent := take (Z.to_nat cap) (reverse (record_of <$> ps)) in
  items s = Some recent ∧
  size s = Z.min cap (Z.of_nat (length ps)) ∧
  (∀ k, is_Some (cache s !! k) ↔ k ∈ rkey <$> recent).
Proof.
  intros Hinit Hnd Httl Hst Hpair s recent.
  apply __init___run in Hinit as (Hpos & Hcap & _ & HR0).
  destruct (puts_recent_run ps s0 [] HR0 Hnd) as (lm & HR & E);
    [by intros ? _ ?%elem_of_nil | done | done | done | by intros ? ? _ ?%elem_of_nil |].
  fold s in HR. rewrite app_nil_r, Hcap in E. fold recent in E.
  split_and!.
  - by rewrite (Repr_items _ _ HR), E.
  - rewrite (Repr_size _ _ HR), <- (length_fmap snd lm), E. unfold recent.
    rewrite length_take, length_reverse, length_fmap. lia.
  - intros k. by rewrite (Repr_index _ _ k HR), E.
Qed.

(** X11. How size() moves: a get never raises it and lowers it by at most
    one, a put raises it by at most one, and clear brings it to zero. *)
Theorem size_moves_by_one s o :
  reachable None_key None_value time_zero float_ge float_add s →
  size (exec None_value float_ge float_add o s) ≤ size s + 1 ∧
  (∀ now k, o = Get now k → size s - 1 ≤ size (exec None_value float_ge float_add o s) ≤ size s) ∧
  (o = Clear → size (exec None_value float_ge float_add o s) = 0).
Proof.
  intros [lm HR]%reachable_Repr.
  destruct (run_refines o _ _ HR) as (lm' & HR' & _ & Hlm' & _).
  rewrite (Repr_size _ _ HR'), (Repr_size _ _ HR),
    <- (length_fmap snd lm'), <- (length_fmap snd lm), Hlm'.
  pose proof (Repr_NoDup_keys _ _ HR) as Hkeys.
  assert (∀ now k, let m' := (list_get None_value float_ge now k lm.*2).2 in
            (length lm.*2 - 1 ≤ length m' ≤ length lm.*2)%nat) as Hget.
  { intros now k. destruct (decide (k ∈ rkey <$> lm.*2)) as [Hin|Hnin].
    - apply key_split in Hin as (m1 & d & m2 & E & <-). rewrite E in Hkeys |- *.
      destruct (float_ge now (rexpiry d)) eqn:Hge.
      + rewrite list_get_expired by done. simpl. rewrite !length_app. simpl. lia.
      + rewrite list_get_hit by done. simpl. rewrite !length_app. simpl. lia.
    - rewrite list_get_miss by done. simpl. lia. }
  split_and!.
  - destruct o as [now k|now clock k v ttl|]; simpl.
    + specialize (Hget now k). destruct (list_get None_value float_ge now k lm.*2). simpl in *. lia.
    + unfold list_put. destruct (_ <=? _); [simpl; lia|].
      destruct (float_add now ttl); [|simpl; lia].
      destruct (lookup_record k lm.*2) eqn:E; simpl.
      * pose proof (length_filter (λ d, rkey d ≠ k) lm.*2). unfold remove_key. lia.
      * pose proof (make_room_length_le (live float_ge clock) (capacity s) lm.*2). lia.
    + lia.
  - intros now k ->. simpl. specialize (Hget now k).
    destruct (list_get None_value float_ge now k lm.*2). simpl in *. lia.
  - by intros ->.
Qed.

(** X12. The sweep on its own: on a reachable state _cleanup_expired
    returns, removes from the index and the ledger exactly the records that
    have expired at the clock reading taken for their key, and keeps the
    live ones in their order; the capacity is untouched. *)
Theorem sweep_removes_exactly_the_expired s m clock :
  reachable None_key None_value time_zero float_ge float_add s →
  items s = Some m →
  ∃ s', _cleanup_expired float_ge clock s = (Return (), s') ∧
    items s' = Some (filter (live float_ge clock) m) ∧
    (∀ k, is_Some (cache s' !! k) ↔ k ∈ rkey <$> filter (live float_ge clock) m) ∧
    capacity s' = capacity s.
Proof.
  intros Hs Hm. destruct (reachable_items _ _ Hs Hm) as (lm & HR & <-).
  destruct (_cleanup_expired_run clock _ _ HR) as (c' & st' & Hrun & _ & HR').
  eexists. split_and!; [exact Hrun | | | done].
  - by rewrite (Repr_items _ _ HR'), filter_snd.
  - intros k. by rewrite (Repr_index _ _ k HR'), filter_snd.
Qed.

End proofs.

(** * The theorems at concrete caches *)

Lemma cache2_init : py_init 2 = inr cache2.
Proof. reflexivity. Qed.

Lemma cache_ab_reachable : py_reachable cache_ab.
Proof. apply reachable_execs. by apply (reachable_init _ _ _ _ _ 2). Qed.

Lemma cache_a_reachable : py_reachable cache_a.
Proof. apply reachable_execs. by apply (reachable_init _ _ _ _ _ 2). Qed.

Lemma cache_ab_items : items cache_ab = Some [record_b; record_a].
Proof. vm_compute. reflexivity. Qed.

Lemma huge_ttl_overflows x : pyfloat_add x huge_ttl = None.
Proof. unfold pyfloat_add. by vm_compute (float_of_int huge_ttl). Qed.

Lemma put_within_capacity_witness :
  py_init 2 = inr cache2 ∧
  py_put (Fin 60) (at_time 60) (Some "c") (Some 3) 5000
      (py_execs [Put_of put_a; Put_of put_b] cache2)
    = (Return (), py_exec (Put_of put_c) cache_ab) ∧
  size (py_exec (Put_of put_c) cache_ab) ≤ 2.
Proof.
  assert (py_put (Fin 60) (at_time 60) (Some "c") (Some 3) 5000
              (py_execs [Put_of put_a; Put_of put_b] cache2)
          = (Return (), py_exec (Put_of put_c) cache_ab)) as Hput
    by (vm_compute; reflexivity).
  split; [exact cache2_init|]. split; [exact Hput|].
  exact (put_within_capacity None None (Fin 0) pyfloat_ge pyfloat_add 2 cache2
           [Put_of put_a; Put_of put_b] _ _ _ _ _ _ _ cache2_init Hput).
Defined.

(** C2 as stated fails: the cache is full, "a" has expired at the clock
    reading 60 and "c" is new, but the put of "c" with the positive TTL
    10^400 raises OverflowError before any sweep: the expired record of "a"
    is still tracked, nothing is evicted and "c" is not inserted. *)
Lemma put_full_huge_ttl_no_sweep :
  py_reachable cache_ab ∧
  items cache_ab = Some [record_b; record_a] ∧
  cache cache_ab !! Some "c" = None ∧
  0 < huge_ttl ∧
  capacity cache_ab ≤ size cache_ab ∧
  pyfloat_ge (at_time 60 (rkey record_a)) (rexpiry record_a) = true ∧
  py_put (Fin 60) (at_time 60) (Some "c") (Some 3) huge_ttl cache_ab
    = (Raise OverflowError, cache_ab) ∧
  ¬ (∃ s' m', py_put (Fin 60) (at_time 60) (Some "c") (Some 3) huge_ttl cache_ab
                = (Return (), s') ∧
              items s' = Some m' ∧ record_a ∉ m').
Proof.
  assert (py_put (Fin 60) (at_time 60) (Some "c") (Some 3) huge_ttl cache_ab
          = (Raise OverflowError, cache_ab)) as Hput
    by (apply put_overflow_run; [reflexivity | apply huge_ttl_overflows]).
  split_and!; [exact cache_ab_reachable | exact cache_ab_items | by vm_compute
              | reflexivity | by vm_compute | reflexivity | exact Hput |].
  intros (s' & m' & Hret & _). rewrite Hput in Hret. discriminate.
Qed.

Lemma put_full_sweeps_then_evicts_witness :
  py_reachable cache_ab ∧
  items cache_ab = Some [record_b; record_a] ∧
  cache cache_ab !! Some "c" = None ∧
  0 < 5000 ∧
  capacity cache_ab ≤ size cache_ab ∧
  ∃ s', py_put (Fin 60) (at_time 60) (Some "c") (Some 3) 5000 cache_ab = (Return (), s') ∧
    items s' = Some [record_c; record_b].
Proof.
  assert (cache cache_ab !! Some "c" = None) as Hk by (vm_compute; reflexivity).
  assert (0 < 5000) as Httl by lia.
  assert (capacity cache_ab ≤ size cache_ab) as Hfull by (vm_compute; discriminate).
  assert (pyfloat_add (Fin 60) 5000 = Some (Fin 5060)) as Hadd by (vm_compute; reflexivity).
  split_and!; [exact cache_ab_reachable | exact cache_ab_items | exact Hk | exact Httl
              | exact Hfull |].
  pose proof (put_full_sweeps_then_evicts None None (Fin 0) pyfloat_ge pyfloat_add
                cache_ab _ (Fin 60) (at_time 60) (Some "c") (Some 3) 5000
                cache_ab_reachable cache_ab_items Hk Httl Hfull) as Hthm.
  cbv zeta in Hthm. rewrite Hadd in Hthm.
  destruct Hthm as (s' & Hput & Hitems & _).
  exists s'. split; [exact Hput | exact Hitems].
Defined.

Lemma get_never_returns_expired_witness :
  py_reachable cache_ab ∧
  items cache_ab = Some [record_b; record_a] ∧
  ∃ s', py_get (Fin 60) (Some "a") cache_ab = (Return None, s') ∧
    items s' = Some [record_b].
Proof.
  split_and!; [exact cache_ab_reachable | exact cache_ab_items |].
  destruct (get_never_returns_expired None None (Fin 0) pyfloat_ge pyfloat_add
              cache_ab _ (Fin 60) (Some "a")
              cache_ab_reachable cache_ab_items) as (_ & _ & Hexpired & _).
  destruct (Hexpired [record_b] record_a [] eq_refl eq_refl) as (s' & Hget & Hitems & _).
  - reflexivity.
  - exists s'. split; [exact Hget | exact Hitems].
Defined.

(** C4 as stated fails: capacity 2, put "a", put "b", get "a", then the
    put of the third distinct key "d" with the TTL 10^400, which has not
    elapsed: that put raises OverflowError, and the second key "b" is not
    evicted: it is still in the index and "d" is not. *)
Lemma recency_huge_ttl_no_eviction :
  let s1 := py_execs [Put_of put_a; Put_of put_b] cache2 in
  let s2 := py_exec (Get (Fin 10) (Some "a")) s1 in
  let s3 := py_exec (Put (Fin 20) (at_time 20) (Some "d") (Some 4) huge_ttl) s2 in
  py_init 2 = inr cache2 ∧
  0 < huge_ttl ∧
  py_get (Fin 10) (Some "a") s1 = (Return (Some 1), s2) ∧
  py_put (Fin 20) (at_time 20) (Some "d") (Some 4) huge_ttl s2 = (Raise OverflowError, s2) ∧
  s3 = s2 ∧
  is_Some (cache s3 !! Some "b") ∧
  cache s3 !! Some "d" = None ∧
  (py_get (Fin 30) (Some "b") s3).1 = Return (Some 2).
Proof.
  intros s1 s2 s3.
  assert (py_put (Fin 20) (at_time 20) (Some "d") (Some 4) huge_ttl s2
          = (Raise OverflowError, s2)) as Hput
    by (apply put_overflow_run; [reflexivity | apply huge_ttl_overflows]).
  assert (s3 = s2) as E by (unfold s3; by rewrite exec_Put, Hput).
  split_and!; [exact cache2_init | reflexivity | by vm_compute | exact Hput | exact E
              | rewrite E | rewrite E | rewrite E].
  - vm_compute. eauto.
  - by vm_compute.
  - by vm_compute.
Qed.

Lemma recency_protects_first_key_witness :
  py_init 2 = inr cache2 ∧
  items (py_exec (Put_of put_d) (py_exec (Get (Fin 10) (Some "a")) cache_ab))
    = Some [record_of put_d; record_of put_a] ∧
  cache (py_exec (Put_of put_d) (py_exec (Get (Fin 10) (Some "a")) cache_ab)) !! Some "b"
    = None.
Proof.
  assert (NoDup (p_key <$> [put_a; put_b] ++ [put_d])) as Hnd.
  { apply (bool_decide_unpack _). vm_compute. exact I. }
  assert (Forall (λ u : @put_args pykey pyvalue pyfloat, 0 < p_ttl u)
            ([put_a; put_b] ++ [put_d]))
    as Httl by (repeat constructor).
  assert (Forall (stores pyfloat_add) ([put_a; put_b] ++ [put_d]))
    as Hst by (repeat constructor; vm_compute; reflexivity).
  assert (Forall (λ u : @put_args pykey pyvalue pyfloat,
            pyfloat_ge (p_clock put_d (p_key u)) (p_expiry u) = false) [put_a; put_b])
    as Hlive by (repeat constructor).
  destruct (recency_protects_first_key None None (Fin 0) pyfloat_ge pyfloat_add
              2 put_a put_b [] put_d (Fin 10) cache2
              cache2_init eq_refl Hnd Httl Hst eq_refl Hlive)
    as (_ & _ & Hitems & _ & _ & _ & Hk2 & _).
  split_and!; [exact cache2_init | exact Hitems | exact Hk2].
Defined.

(** C5 as stated fails: "a" is in the index and the TTL 10^400 is
    positive, but the put raises OverflowError: the value and the expiry of
    the record of "a" are not overwritten and the record is not moved to the
    front. *)
Lemma put_existing_huge_ttl_no_update :
  py_reachable cache_ab ∧
  items cache_ab = Some ([record_b] ++ record_a :: []) ∧
  0 < huge_ttl ∧
  py_put (Fin 10) (at_time 10) (Some "a") (Some 9) huge_ttl cache_ab
    = (Raise OverflowError, cache_ab) ∧
  (py_get (Fin 10) (Some "a") cache_ab).1 = Return (Some 1) ∧
  ¬ (∃ s' e, py_put (Fin 10) (at_time 10) (Some "a") (Some 9) huge_ttl cache_ab
               = (Return (), s') ∧
             items s' = Some ((Some "a", Some 9, e) :: [record_b] ++ [])).
Proof.
  assert (py_put (Fin 10) (at_time 10) (Some "a") (Some 9) huge_ttl cache_ab
          = (Raise OverflowError, cache_ab)) as Hput
    by (apply put_overflow_run; [reflexivity | apply huge_ttl_overflows]).
  split_and!; [exact cache_ab_reachable | exact cache_ab_items | reflexivity | exact Hput
              | by vm_compute |].
  intros (s' & e & Hret & _). rewrite Hput in Hret. discriminate.
Qed.

Lemma put_existing_updates_in_place_witness :
  py_reachable cache_ab ∧
  items cache_ab = Some ([record_b] ++ record_a :: []) ∧
  0 < 100 ∧
  ∃ s', py_put (Fin 60) (at_time 60) (Some "a") (Some 9) 100 cache_ab = (Return (), s') ∧
    items s' = Some [(Some "a", Some 9, Fin 160); record_b] ∧
    size s' = size cache_ab.
Proof.
  assert (0 < 100) as Httl by lia.
  assert (pyfloat_add (Fin 60) 100 = Some (Fin 160)) as Hadd by (vm_compute; reflexivity).
  split_and!; [exact cache_ab_reachable | exact cache_ab_items | exact Httl |].
  pose proof (put_existing_updates_in_place None None (Fin 0) pyfloat_ge pyfloat_add
                cache_ab [record_b] record_a []
                (Fin 60) (at_time 60) (Some 9) 100 cache_ab_reachable cache_ab_items Httl)
    as Hthm.
  rewrite Hadd in Hthm. destruct Hthm as (s' & Hput & Hitems & _ & Hsize).
  exists s'. split_and!; [exact Hput | exact Hitems | exact Hsize].
Defined.

Lemma rejections_have_no_effect_witness :
  0 ≤ 0 ∧
  py_put (Fin 60) (at_time 60) (Some "c") (Some 3) 0 cache_ab
    = (Raise (ValueError "TTL must be positive"), cache_ab) ∧
  py_init 0 = inl (ValueError "Capacity must be positive").
Proof.
  assert (0 ≤ 0) as H0 by lia.
  split; [exact H0|].
  exact (rejections_have_no_effect None None (Fin 0) pyfloat_ge pyfloat_add
           cache_ab (Fin 60) (at_time 60) (Some "c") (Some 3) 0 0 H0 H0).
Defined.

Lemma structural_invariant_witness :
  py_reachable cache_ab ∧
  well_formed cache_ab ∧
  well_formed (py_exec (Get (Fin 60) (Some "a")) cache_ab).
Proof.
  split; [exact cache_ab_reachable|].
  exact (structural_invariant None None (Fin 0) pyfloat_ge pyfloat_add
           cache_ab (Get (Fin 60) (Some "a")) cache_ab_reachable).
Defined.

Lemma clear_empties_witness :
  py_reachable cache_ab ∧
  ∃ s', clear cache_ab = (Return (), s') ∧ size s' = 0 ∧ items s' = Some [].
Proof.
  split; [exact cache_ab_reachable|].
  destruct (clear_empties None None (Fin 0) pyfloat_ge pyfloat_add
              cache_ab cache_ab_reachable)
    as (s' & Hclear & Hsize & _ & Hitems & _).
  exists s'. split_and!; [exact Hclear | exact Hsize | exact Hitems].
Defined.

Lemma eviction_is_safe_witness :
  py_reachable cache_ab ∧
  (∃ s1 lru s2,
     py_sweep (at_time 10)
       (alloc (mkNode (Some "c") (Some 3) (Fin 5070) None None) cache_ab).2
       = (Return (), s1) ∧
     capacity s1 ≤ size s1 ∧
     _remove_tail s1 = (Return lru, s2) ∧
     key <$> store s2 !! lru = Some (Some "a") ∧
     cache s2 !! Some "a" = Some lru) ∧
  ∃ s', py_put (Fin 70) (at_time 10) (Some "c") (Some 3) 5000 cache_ab = (Return (), s').
Proof.
  split; [exact cache_ab_reachable|].
  assert (pyfloat_add (Fin 70) 5000 = Some (Fin 5070)) as Hadd by (vm_compute; reflexivity).
  destruct (eviction_is_safe None None (Fin 0) pyfloat_ge pyfloat_add
              cache_ab (Fin 70) (at_time 10) (Some "c") (Some 3) 5000 (Fin 5070)
              cache_ab_reachable) as (s1 & Hsweep & Hevict & Hput).
  split.
  2: { assert (0 < 5000) as Httl by lia. specialize (Hput Httl).
       rewrite Hadd in Hput. exact Hput. }
  assert (capacity s1 ≤ size s1) as Hfull.
  { vm_compute in Hsweep. injection Hsweep as <-. vm_compute. discriminate. }
  destruct (Hevict Hfull) as (l & lru & s2 & n & Hfwd & _ & _ & Htail & Hn & Hk).
  assert (lru = 2%nat) as Hlru.
  { clear Htail Hn Hk. vm_compute in Hsweep. injection Hsweep as <-.
    vm_compute in Hfwd. injection Hfwd as Hfwd.
    destruct l as [|? [|? l]]; [| |by destruct l]; simplify_eq. done. }
  exists s1, lru, s2. split_and!; [exact Hsweep | exact Hfull | exact Htail | |].
  - rewrite Hn. simpl. f_equal. clear Hevict Hput Hfull Hfwd Hk. subst lru.
    vm_compute in Hsweep. injection Hsweep as <-.
    vm_compute in Htail. injection Htail as <-.
    vm_compute in Hn. by injection Hn as <-.
  - assert (key n = Some "a") as <-; [|exact Hk].
    clear Hevict Hput Hfull Hfwd Hk. subst lru.
    vm_compute in Hsweep. injection Hsweep as <-.
    vm_compute in Htail. injection Htail as <-.
    vm_compute in Hn. by injection Hn as <-.
Defined.

(** C10 as stated fails: "b" is new, the cache has room and the TTL 10^400
    is positive, but the put raises OverflowError: no record is inserted and
    size() does not grow. *)
Lemma put_new_huge_ttl_no_insert :
  py_reachable cache_a ∧
  items cache_a = Some [record_a] ∧
  cache cache_a !! Some "b" = None ∧
  0 < huge_ttl ∧
  size cache_a < capacity cache_a ∧
  py_put (Fin 0) (at_time 0) (Some "b") (Some 2) huge_ttl cache_a
    = (Raise OverflowError, cache_a) ∧
  ¬ (∃ s', py_put (Fin 0) (at_time 0) (Some "b") (Some 2) huge_ttl cache_a
             = (Return (), s') ∧
           size s' = size cache_a + 1).
Proof.
  assert (py_put (Fin 0) (at_time 0) (Some "b") (Some 2) huge_ttl cache_a
          = (Raise OverflowError, cache_a)) as Hput
    by (apply put_overflow_run; [reflexivity | apply huge_ttl_overflows]).
  split_and!; [exact cache_a_reachable | by vm_compute | by vm_compute | reflexivity
              | by vm_compute | exact Hput |].
  intros (s' & Hret & _). rewrite Hput in Hret. discriminate.
Qed.

Lemma put_new_with_room_witness :
  py_reachable cache_a ∧
  items cache_a = Some [record_a] ∧
  cache cache_a !! Some "b" = None ∧
  0 < 5000 ∧
  size cache_a < capacity cache_a ∧
  ∃ s', py_put (Fin 0) (at_time 0) (Some "b") (Some 2) 5000 cache_a = (Return (), s') ∧
    items s' = Some [record_b; record_a] ∧
    size s' = size cache_a + 1.
Proof.
  assert (items cache_a = Some [record_a]) as Hitems by (vm_compute; reflexivity).
  assert (cache cache_a !! Some "b" = None) as Hk by (vm_compute; reflexivity).
  assert (0 < 5000) as Httl by lia.
  assert (size cache_a < capacity cache_a) as Hroom by (vm_compute; reflexivity).
  assert (pyfloat_add (Fin 0) 5000 = Some (Fin 5000)) as Hadd by (vm_compute; reflexivity).
  split_and!; [exact cache_a_reachable | exact Hitems | exact Hk | exact Httl
              | exact Hroom |].
  pose proof (put_new_with_room None None (Fin 0) pyfloat_ge pyfloat_add
                cache_a _ (Fin 0) (at_time 0) (Some "b") (Some 2) 5000
                cache_a_reachable Hitems Hk Httl Hroom) as Hthm.
  rewrite Hadd in Hthm. destruct Hthm as (s' & Hput & Hitems' & Hsize & _).
  exists s'. split_and!; [exact Hput | exact Hitems' | exact Hsize].
Defined.

(** ** The further properties at concrete caches *)

Lemma call_follows_list_model_witness :
  py_reachable cache_ab ∧
  items cache_ab = Some [record_b; record_a] ∧
  (py_run (Get (Fin 60) (Some "a")) cache_ab).1
    = (list_run None pyfloat_ge pyfloat_add (capacity cache_ab)
         (Get (Fin 60) (Some "a")) [record_b; record_a]).1 ∧
  items (py_exec (Get (Fin 60) (Some "a")) cache_ab)
    = Some (list_run None pyfloat_ge pyfloat_add (capacity cache_ab)
              (Get (Fin 60) (Some "a")) [record_b; record_a]).2 ∧
  size cache_ab = Z.of_nat (length [record_b; record_a]).
Proof.
  split; [exact cache_ab_reachable|]. split; [exact cache_ab_items|].
  exact (call_follows_list_model None None (Fin 0) pyfloat_ge pyfloat_add
           cache_ab _ (Get (Fin 60) (Some "a")) cache_ab_reachable cache_ab_items).
Defined.

Lemma behaviour_is_list_model_witness :
  py_init 2 = inr cache2 ∧
  py_results
    [Put_of put_a; Put_of put_b; Get (Fin 60) (Some "a"); Get (Fin 60) (Some "b");
     Put (Fin 70) (at_time 70) (Some "e") (Some 5) huge_ttl] cache2
    = list_results None pyfloat_ge pyfloat_add 2
        [Put_of put_a; Put_of put_b; Get (Fin 60) (Some "a"); Get (Fin 60) (Some "b");
         Put (Fin 70) (at_time 70) (Some "e") (Some 5) huge_ttl] [].
Proof.
  split; [exact cache2_init|].
  exact (behaviour_is_list_model None None (Fin 0) pyfloat_ge pyfloat_add
           2 cache2 _ cache2_init).
Defined.


Lemma clear_is_like_new_witness :
  py_reachable cache_ab ∧
  py_init (capacity cache_ab) = inr cache2 ∧
  py_results [Put_of put_c; Get (Fin 70) (Some "a")] (py_exec Clear cache_ab)
    = py_results [Put_of put_c; Get (Fin 70) (Some "a")] cache2.
Proof.
  assert (py_init (capacity cache_ab) = inr cache2) as Hinit
    by (vm_compute; reflexivity).
  split; [exact cache_ab_reachable|]. split; [exact Hinit|].
  exact (clear_is_like_new None None (Fin 0) pyfloat_ge pyfloat_add
           cache_ab cache2 _ cache_ab_reachable Hinit).
Defined.

Lemma put_then_get_witness :
  py_reachable cache_ab ∧
  0 < 5000 ∧
  pyfloat_add (Fin 60) 5000 = Some (Fin 5060) ∧
  pyfloat_ge (Fin 100) (Fin 5060) = false ∧
  ∃ s' s'',
    py_put (Fin 60) (at_time 60) (Some "c") (Some 3) 5000 cache_ab = (Return (), s') ∧
    py_get (Fin 100) (Some "c") s' = (Return (Some 3), s'').
Proof.
  assert (0 < 5000) as Httl by lia.
  assert (pyfloat_add (Fin 60) 5000 = Some (Fin 5060)) as Hadd by (vm_compute; reflexivity).
  assert (pyfloat_ge (Fin 100) (Fin 5060) = false) as Htg by reflexivity.
  split_and!; [exact cache_ab_reachable | exact Httl | exact Hadd | exact Htg |].
  destruct (put_then_get None None (Fin 0) pyfloat_ge pyfloat_add
              cache_ab (Fin 60) (at_time 60) (Some "c") (Some 3) 5000 (Fin 5060) (Fin 100)
              cache_ab_reachable Httl Hadd Htg) as (s' & s'' & rest & Hput & _ & Hget & _).
  exists s', s''. split; [exact Hput | exact Hget].
Defined.

Lemma put_then_get_expired_witness :
  py_reachable cache_ab ∧
  0 < 5000 ∧
  pyfloat_add (Fin 60) 5000 = Some (Fin 5060) ∧
  pyfloat_ge (Fin 5060) (Fin 5060) = true ∧
  ∃ s' s'',
    py_put (Fin 60) (at_time 60) (Some "c") (Some 3) 5000 cache_ab = (Return (), s') ∧
    py_get (Fin 5060) (Some "c") s' = (Return None, s'') ∧
    cache s'' !! Some "c" = None.
Proof.
  assert (0 < 5000) as Httl by lia.
  assert (pyfloat_add (Fin 60) 5000 = Some (Fin 5060)) as Hadd by (vm_compute; reflexivity).
  assert (pyfloat_ge (Fin 5060) (Fin 5060) = true) as Htg by reflexivity.
  split_and!; [exact cache_ab_reachable | exact Httl | exact Hadd | exact Htg |].
  destruct (put_then_get_expired None None (Fin 0) pyfloat_ge pyfloat_add
              cache_ab (Fin 60) (at_time 60) (Some "c") (Some 3) 5000 (Fin 5060) (Fin 5060)
              cache_ab_reachable Httl Hadd Htg)
    as (s' & s'' & rest & Hput & _ & Hget & _ & Hk & _).
  exists s', s''. split_and!; [exact Hput | exact Hget | exact Hk].
Defined.

Lemma only_invalid_ttl_raises_witness :
  py_reachable cache_ab ∧
  (py_run (Put (Fin 60) (at_time 60) (Some "c") (Some 3) huge_ttl) cache_ab).1
    = Raise OverflowError ∧
  py_exec (Put (Fin 60) (at_time 60) (Some "c") (Some 3) huge_ttl) cache_ab = cache_ab.
Proof.
  assert ((py_run (Put (Fin 60) (at_time 60) (Some "c") (Some 3) huge_ttl) cache_ab).1
          = Raise OverflowError) as Hraise
    by (vm_compute; reflexivity).
  split; [exact cache_ab_reachable|]. split; [exact Hraise|].
  exact (proj1 (only_invalid_ttl_raises None None (Fin 0) pyfloat_ge pyfloat_add
                  cache_ab _ _ cache_ab_reachable Hraise)).
Defined.

Lemma capacity_and_sentinels_fixed_witness :
  py_init 2 = inr cache2 ∧
  capacity cache_ab = 2 ∧
  head cache_ab = head cache2 ∧
  tail cache_ab = tail cache2.
Proof.
  split; [exact cache2_init|].
  destruct (capacity_and_sentinels_fixed None None (Fin 0) pyfloat_ge pyfloat_add
              2 cache2 [Put_of put_a; Put_of put_b] cache2_init) as (Hc & Hh & Ht & _).
  split_and!; [exact Hc | exact Hh | exact Ht].
Defined.

Lemma expired_record_spares_live_ones_witness :
  py_reachable cache_ab ∧
  items cache_ab = Some [record_b; record_a] ∧
  cache cache_ab !! Some "c" = None ∧
  0 < 5000 ∧
  pyfloat_add (Fin 60) 5000 = Some (Fin 5060) ∧
  capacity cache_ab ≤ size cache_ab ∧
  record_a ∈ [record_b; record_a] ∧
  pyfloat_ge (at_time 60 (rkey record_a)) (rexpiry record_a) = true ∧
  ∃ s', py_put (Fin 60) (at_time 60) (Some "c") (Some 3) 5000 cache_ab = (Return (), s') ∧
    items s' = Some [record_c; record_b].
Proof.
  assert (cache cache_ab !! Some "c" = None) as Hk by (vm_compute; reflexivity).
  assert (0 < 5000) as Httl by lia.
  assert (pyfloat_add (Fin 60) 5000 = Some (Fin 5060)) as Hadd by (vm_compute; reflexivity).
  assert (capacity cache_ab ≤ size cache_ab) as Hfull by (vm_compute; discriminate).
  assert (record_a ∈ [record_b; record_a]) as Hin by (right; left).
  assert (pyfloat_ge (at_time 60 (rkey record_a)) (rexpiry record_a) = true) as He
    by reflexivity.
  split_and!; [exact cache_ab_reachable | exact cache_ab_items | exact Hk | exact Httl
              | exact Hadd | exact Hfull | exact Hin | exact He |].
  exact (expired_record_spares_live_ones None None (Fin 0) pyfloat_ge pyfloat_add
           cache_ab _ (Fin 60) (at_time 60) (Some "c") (Some 3) 5000 (Fin 5060) record_a
           cache_ab_reachable cache_ab_items Hk Httl Hadd Hfull Hin He).
Defined.

Lemma puts_keep_most_recent_witness :
  py_init 2 = inr cache2 ∧
  items (py_execs (Put_of <$> [put_a; put_b; put_d]) cache2)
    = Some [record_of put_d; record_of put_b] ∧
  size (py_execs (Put_of <$> [put_a; put_b; put_d]) cache2) = 2.
Proof.
  assert (NoDup (p_key <$> [put_a; put_b; put_d])) as Hnd.
  { apply (bool_decide_unpack _). vm_compute. exact I. }
  assert (Forall (λ u : @put_args pykey pyvalue pyfloat, 0 < p_ttl u) [put_a; put_b; put_d])
    as Httl by (repeat constructor).
  assert (Forall (stores pyfloat_add) [put_a; put_b; put_d])
    as Hst by (repeat constructor; vm_compute; reflexivity).
  assert (∀ u u' : @put_args pykey pyvalue pyfloat,
            u ∈ [put_a; put_b; put_d] → u' ∈ [put_a; put_b; put_d] →
            pyfloat_ge (p_clock u (p_key u')) (p_expiry u') = false) as Hpair.
  { intros u u' Hu Hu'. rewrite !elem_of_cons, elem_of_nil in Hu, Hu'.
    destruct Hu as [->|[->|[->|[]]]]; destruct Hu' as [->|[->|[->|[]]]]; reflexivity. }
  split; [exact cache2_init|].
  destruct (puts_keep_most_recent None None (Fin 0) pyfloat_ge pyfloat_add
              2 cache2 [put_a; put_b; put_d]
              cache2_init Hnd Httl Hst Hpair) as (Hitems & Hsize & _).
  split; [exact Hitems | exact Hsize].
Defined.

Lemma size_moves_by_one_witness :
  py_reachable cache_ab ∧
  size (py_exec (Get (Fin 60) (Some "a")) cache_ab) ≤ size cache_ab + 1 ∧
  size cache_ab - 1 ≤ size (py_exec (Get (Fin 60) (Some "a")) cache_ab) ≤ size cache_ab.
Proof.
  split; [exact cache_ab_reachable|].
  destruct (size_moves_by_one None None (Fin 0) pyfloat_ge pyfloat_add
              cache_ab (Get (Fin 60) (Some "a")) cache_ab_reachable)
    as (Hle & Hget & _).
  split; [exact Hle | exact (Hget (Fin 60) (Some "a") eq_refl)].
Defined.

Lemma sweep_removes_exactly_the_expired_witness :
  py_reachable cache_ab ∧
  items cache_ab = Some [record_b; record_a] ∧
  ∃ s', py_sweep (at_time 60) cache_ab = (Return (), s') ∧
    items s' = Some [record_b].
Proof.
  split; [exact cache_ab_reachable|]. split; [exact cache_ab_items|].
  destruct (sweep_removes_exactly_the_expired None None (Fin 0) pyfloat_ge pyfloat_add
              cache_ab _ (at_time 60)
              cache_ab_reachable cache_ab_items) as (s' & Hrun & Hitems & _).
  exists s'. split; [exact Hrun | exact Hitems].
Defined.

(** * The module's tests, run on the model *)

(** Test 2 of the module: capacity 3; put a, b, c; get a; put d evicts b. *)
Example test_lru_eviction :
  let s := py_execs
             [Put (Fin 0) (at_time 0) (Some "a") (Some 1) 5000;
              Put (Fin 1) (at_time 1) (Some "b") (Some 2) 5000;
              Put (Fin 2) (at_time 2) (Some "c") (Some 3) 5000;
              Get (Fin 3) (Some "a");
              Put (Fin 4) (at_time 4) (Some "d") (Some 4) 5000]
             (mkCache 3 ∅ 0%nat 1%nat (store cache2)) in
  (py_get (Fin 5) (Some "a") s).1 = Return (Some 1) ∧
  (py_get (Fin 5) (Some "b") s).1 = Return None ∧
  (py_get (Fin 5) (Some "c") s).1 = Return (Some 3) ∧
  (py_get (Fin 5) (Some "d") s).1 = Return (Some 4).
Proof. vm_compute. done. Qed.

(** Test 6 of the module, at capacity 2: the expired "a" frees the slot
    for "c", and "b" is not evicted. *)
Example test_expiry_preempts_eviction :
  let s := py_exec (Put_of put_c) cache_ab in
  items s = Some [record_c; record_b] ∧
  (py_get (Fin 70) (Some "a") s).1 = Return None ∧
  (py_get (Fin 70) (Some "b") s).1 = Return (Some 2) ∧
  (py_get (Fin 70) (Some "c") s).1 = Return (Some 3).
Proof. vm_compute. done. Qed.

(** Test 7 of the module: the rejected put raises and changes nothing. *)
Example test_invalid_ttl :
  py_put (Fin 0) (at_time 0) (Some "key") (Some 7) 0 cache_ab
  = (Raise (ValueError "TTL must be positive"), cache_ab).
Proof. vm_compute. done. Qed.

(** ** The float sum of line 100 *)

(** An int TTL beyond the float range: [now + ttl_ms] raises OverflowError
    before the cache is touched. *)
Example put_ttl_beyond_float_range :
  py_put (Fin 0) (at_time 0) (Some "key") (Some 7) huge_ttl cache_ab
  = (Raise OverflowError, cache_ab).
Proof. apply put_overflow_run; [reflexivity | apply huge_ttl_overflows]. Qed.

(** Above 2^53 the sum is rounded: [0.0 + (2^53 + 1)] is [2^53], and
    [3.0 + (2^53 + 3)] is [2^53 + 8]. *)
Example float_sum_is_rounded :
  pyfloat_add (Fin 0) (2 ^ 53 + 1) = Some (Fin (2 ^ 53)) ∧
  pyfloat_add (Fin 3) (2 ^ 53 + 3) = Some (Fin (2 ^ 53 + 8)).
Proof. vm_compute. done. Qed.

(** So the expiry stored can differ from the exact sum: the record put at
    time 0 with the TTL 2^53 + 1 expires at 2^53, and a get at that very
    reading finds it expired. *)
Example put_stores_rounded_expiry :
  let s := py_exec (Put (Fin 0) (at_time 0) (Some "k") (Some 7) (2 ^ 53 + 1)) cache2 in
  items s = Some [(Some "k", Some 7, Fin (2 ^ 53))] ∧
  (py_get (Fin (2 ^ 53)) (Some "k") s).1 = Return None ∧
  (py_get (Fin (2 ^ 53 - 1)) (Some "k") s).1 = Return (Some 7).
Proof. vm_compute. done. Qed.
